(** * node_events.cc: EventEmitter::Emit and EventSource

    A shallow embedding of [src/node_events.cc].  The native code runs on top
    of a JavaScript heap that it reads through handles, a handful of
    process-wide statics ([current_source], [tick_cb], [process]) and the
    per-object fields of [EventSource].  Calls into JavaScript are the one
    thing the file does not own: they are a parameter [Call] of the
    development, an arbitrary transformer of the whole world that may return,
    throw, or take the process down.

    Property reads go through [Get], which looks up data properties along
    the prototype chain; accessor properties, which would run JavaScript
    inside a read, are not part of the model.

    Conventions:
    - [assert] is modelled as compiled in: a failed assertion ends the run
      with [Abort], and so does a call through an empty handle or a
      dangling pointer;
    - [exit(1)] ends the run with [Exit 1];
    - every outward action of the native code (a call into JavaScript, a line
      on stderr, a report of a caught exception) is appended to a trace of
      [Event]s that is returned next to the outcome. *)

From stdpp Require Import base option list gmap strings.
From Stdlib Require Import ZArith Lia.

Local Open Scope Z_scope.

(** ** The JavaScript side, as seen through V8 handles *)

(** Identity of a heap object (what a non-empty [Handle<Object>] refers to). *)
Definition Obj := positive.

(** Address of a native [EventSource] (what [EventSource*] holds). *)
Definition Ptr := positive.

Inductive Value :=
| VUndefined
| VNumber (n : Z)
| VString (s : string)
| VObject (o : Obj).

Inductive ObjectKind :=
| KPlain
| KFunction
| KArray (elems : list Value).

(** [props] are the own data properties, [prototype] the object the lookup
    of an absent property goes on to; [internal_field] is the slot in which
    [ObjectWrap] keeps the address of the native object. *)
Record JsObject := {
  kind : ObjectKind;
  props : gmap string Value;
  prototype : option Obj;
  internal_field : option Ptr
}.

Record StackFrame := {
  script_name : string;
  function_name : string;
  line_number : Z;
  column : Z
}.

Definition StackTrace := list StackFrame.

(** ** The native side *)

(** The fields of [EventSource] (with [handle_] and [refs_] inherited from
    [ObjectWrap]).  An empty [Persistent] handle is [None]. *)
Record EventSource := {
  handle_ : Obj;
  refs_ : Z;
  trace_ : option StackTrace;
  parent_source_ : option Obj
}.

(** [js_stack] is the execution stack [StackTrace::CurrentStackTrace] would
    see; [persistents] counts the live [Persistent] handles this file has
    created and not yet disposed. *)
Record World := {
  heap : gmap Obj JsObject;
  global : Obj;
  js_stack : list StackFrame;
  sources : gmap Ptr EventSource;
  current_source : option Ptr;
  tick_cb : option Obj;
  process : option Obj;
  persistents : Z
}.

Definition set_heap (h : gmap Obj JsObject) (w : World) : World :=
  {| heap := h; global := global w; js_stack := js_stack w;
     sources := sources w; current_source := current_source w;
     tick_cb := tick_cb w; process := process w;
     persistents := persistents w |}.

Definition set_sources (s : gmap Ptr EventSource) (w : World) : World :=
  {| heap := heap w; global := global w; js_stack := js_stack w;
     sources := s; current_source := current_source w;
     tick_cb := tick_cb w; process := process w;
     persistents := persistents w |}.

Definition set_current_source (c : option Ptr) (w : World) : World :=
  {| heap := heap w; global := global w; js_stack := js_stack w;
     sources := sources w; current_source := c;
     tick_cb := tick_cb w; process := process w;
     persistents := persistents w |}.

Definition set_tick_cb (t : option Obj) (w : World) : World :=
  {| heap := heap w; global := global w; js_stack := js_stack w;
     sources := sources w; current_source := current_source w;
     tick_cb := t; process := process w;
     persistents := persistents w |}.

Definition set_process (p : option Obj) (w : World) : World :=
  {| heap := heap w; global := global w; js_stack := js_stack w;
     sources := sources w; current_source := current_source w;
     tick_cb := tick_cb w; process := p;
     persistents := persistents w |}.

Definition set_persistents (n : Z) (w : World) : World :=
  {| heap := heap w; global := global w; js_stack := js_stack w;
     sources := sources w; current_source := current_source w;
     tick_cb := tick_cb w; process := process w;
     persistents := n |}.

(** ** Outcomes and traces *)

(** What [Function::Call] hands back: a value, or an empty handle with the
    exception pending in the enclosing [TryCatch]. *)
Inductive CallResult :=
| Returned (v : Value)
| Thrown (e : Value).

Inductive Completion (A : Type) :=
| Ret (a : A) (w : World)
| Exit (code : Z) (w : World)
| Abort (w : World).

Arguments Ret {A} a w.
Arguments Exit {A} code w.
Arguments Abort {A} w.

(** Lines the file prints with [fprintf(stderr, ...)]:
    [LSeparator] is ["    ---------------------------\n"],
    [LFrame f s l c] is ["    at %s (%s:%d:%d)\n"] with its four arguments,
    [LText] any other text. *)
Inductive StderrLine :=
| LSeparator
| LFrame (fn script : string) (line col : Z)
| LText (s : string).

Inductive Event :=
| EvCall (f recv : Obj) (argv : list Value)
| EvStderr (l : StderrLine)
| EvReportException (e : Value)
| EvFatalException (e : Value).

Definition M (A : Type) : Type := World -> list Event * Completion A.

Definition ret {A} (a : A) : M A := fun w => ([], Ret a w).

Definition bind {A B} (m : M A) (k : A -> M B) : M B := fun w =>
  match m w with
  | (t1, Ret a w1) => let '(t2, c) := k a w1 in (t1 ++ t2, c)
  | (t1, Exit n w1) => (t1, Exit n w1)
  | (t1, Abort w1) => (t1, Abort w1)
  end.

Declare Scope native_scope.
Delimit Scope native_scope with native.
Notation "'let*' x ':=' m 'in' k" := (bind m (fun x => k))
  (at level 10, x name, m at level 100, k at level 200) : native_scope.
Notation "'run' m 'then' k" := (bind m (fun _ => k))
  (at level 10, m at level 100, k at level 200) : native_scope.
Local Open Scope native_scope.

Definition gets {A} (f : World -> A) : M A := fun w => ([], Ret (f w) w).
Definition modify (f : World -> World) : M unit := fun w => ([], Ret tt (f w)).
Definition emit (e : Event) : M unit := fun w => ([e], Ret tt w).
Definition exit {A} (code : Z) : M A := fun w => ([], Exit code w).
Definition abort {A} : M A := fun w => ([], Abort w).

(** [assert(b)] *)
Definition assert (b : bool) : M unit := if b then ret tt else abort.

Definition fprintf_stderr (l : StderrLine) : M unit := emit (EvStderr l).

Definition trace_of {A} (r : list Event * Completion A) : list Event := fst r.
Definition outcome_of {A} (r : list Event * Completion A) : Completion A := snd r.

Definition world_of {A} (c : Completion A) : World :=
  match c with Ret _ w | Exit _ w | Abort w => w end.

(** ** Handle operations *)

(** The lookup of a data property: the object's own, else its prototype's,
    and so on up the chain.  [fuel] bounds the links followed. *)
Fixpoint Get_fuel (fuel : nat) (h : gmap Obj JsObject) (o : Obj)
    (key : string) : Value :=
  match h !! o with
  | Some js =>
    match props js !! key with
    | Some v => v
    | None =>
      match prototype js, fuel with
      | Some p, S fuel' => Get_fuel fuel' h p key
      | _, _ => VUndefined
      end
    end
  | None => VUndefined
  end.

(** [o->Get(key)] on data properties; a property absent from the whole
    prototype chain reads as [undefined].  The engine keeps prototype chains
    free of cycles, so a chain has no more links than the heap has
    objects. *)
Definition Get (w : World) (o : Obj) (key : string) : Value :=
  Get_fuel (size (heap w)) (heap w) o key.

(** The prototype chain of [o] ends within [n] links. *)
Fixpoint chain_ends (n : nat) (h : gmap Obj JsObject) (o : Obj) : bool :=
  match h !! o with
  | Some js =>
    match prototype js, n with
    | Some p, S n' => chain_ends n' h p
    | Some _, O => false
    | None, _ => true
    end
  | None => true
  end.

Definition IsObject (v : Value) : bool :=
  match v with VObject _ => true | _ => false end.

Definition kind_of (w : World) (v : Value) : option ObjectKind :=
  match v with
  | VObject o => kind <$> heap w !! o
  | _ => None
  end.

Definition IsFunction (w : World) (v : Value) : bool :=
  match kind_of w v with Some KFunction => true | _ => false end.

Definition IsArray (w : World) (v : Value) : bool :=
  match kind_of w v with Some (KArray _) => true | _ => false end.

(** [Local<Array>::Cast(v->ToObject()->Clone())]: the elements of the array
    as they are now, in a fresh array that only the caller's frame holds. *)
Definition Clone (w : World) (v : Value) : list Value :=
  match kind_of w v with Some (KArray elems) => elems | _ => [] end.

(** The symbols the file interns. *)
Definition events_symbol : string := "_events".
Definition callback_symbol : string := "callback".
Definition process_symbol : string := "process".
Definition tick_callback_symbol : string := "_tickCallback".

(** [v->IsFunction()] followed by [Local<Function>::Cast(v)]. *)
Definition as_function (w : World) (v : Value) : option Obj :=
  match v with
  | VObject o => if IsFunction w v then Some o else None
  | _ => None
  end.

(** The object [ToObject] makes of a number or a string; the prototypes of
    the built-in wrappers are not part of the model. *)
Definition wrapper_object : JsObject :=
  {| kind := KPlain; props := ∅; prototype := None; internal_field := None |}.

(** [v->ToObject()]: an object is itself, a number or a string gets a
    fresh wrapper, and [undefined] gives an empty handle. *)
Definition ToObject (v : Value) : M (option Obj) :=
  match v with
  | VObject o => ret (Some o)
  | VNumber _ | VString _ =>
    let* o := gets (fun w => fresh (dom (heap w))) in
    run modify (fun w => set_heap (<[o := wrapper_object]> (heap w)) w) then
    ret (Some o)
  | VUndefined => ret None
  end.

(** [StackTrace::CurrentStackTrace(limit, StackTrace::kOverview)] *)
Definition CurrentStackTrace (w : World) (limit : Z) : StackTrace :=
  take (Z.to_nat limit) (js_stack w).

(** [Persistent<T>::New] and [Persistent<T>::Dispose], as far as the count of
    live handles goes. *)
Definition Persistent_New : M unit :=
  modify (fun w => set_persistents (persistents w + 1) w).
Definition Persistent_Dispose : M unit :=
  modify (fun w => set_persistents (persistents w - 1) w).

(** ** Fields of one [EventSource] *)

Definition set_refs (n : Z) (s : EventSource) : EventSource :=
  {| handle_ := handle_ s; refs_ := n; trace_ := trace_ s;
     parent_source_ := parent_source_ s |}.

Definition set_trace (t : option StackTrace) (s : EventSource) : EventSource :=
  {| handle_ := handle_ s; refs_ := refs_ s; trace_ := t;
     parent_source_ := parent_source_ s |}.

Definition set_parent (p : option Obj) (s : EventSource) : EventSource :=
  {| handle_ := handle_ s; refs_ := refs_ s; trace_ := trace_ s;
     parent_source_ := p |}.

(** [*this]; a pointer to no live object takes the process down. *)
Definition deref (this : Ptr) : M EventSource := fun w =>
  match sources w !! this with
  | Some s => ([], Ret s w)
  | None => ([], Abort w)
  end.

(** Assignment to fields of [*this]. *)
Definition update (this : Ptr) (f : EventSource -> EventSource) : M unit :=
  modify (fun w => set_sources (alter f this (sources w)) w).

(** Modelled from the spec: [ObjectWrap::Ref], declared in
    node_object_wrap.h, which is not part of the sources at hand.  The spec
    has Active "bump external reference count". *)
Definition Ref (this : Ptr) : M unit :=
  let* s := deref this in
  update this (set_refs (refs_ s + 1)).

(** Modelled from the spec: [ObjectWrap::Unref], declared in
    node_object_wrap.h, which is not part of the sources at hand.  The spec
    has Inactive "decreases reference count". *)
Definition Unref (this : Ptr) : M unit :=
  let* s := deref this in
  update this (set_refs (refs_ s - 1)).

(** Modelled from the spec: [ObjectWrap::Unwrap<EventSource>], declared in
    node_object_wrap.h: the native object behind a wrapped host object. *)
Definition Unwrap (o : Obj) : M Ptr := fun w =>
  match heap w !! o ≫= internal_field with
  | Some p => ([], Ret p w)
  | None => ([], Abort w)
  end.

Section Native.

(** [f->Call(recv, argc, argv)], the JavaScript engine. *)
Variable Call : Obj -> Obj -> list Value -> World -> Completion CallResult.

(** [EventSource::kFrameLimit] and [EventSource::kAncestorStackLimit],
    constants of node_events.h. *)
Variable kFrameLimit : Z.
Variable kAncestorStackLimit : Z.

Definition invoke (f recv : Obj) (argv : list Value) : M CallResult :=
  fun w => ([EvCall f recv argv], Call f recv argv w).

(** Modelled from the spec: [FatalException], defined in node.cc: it
    "reports the error" and hands control back to [Emit]. *)
Definition FatalException (e : Value) : M unit := emit (EvFatalException e).

(** Modelled from the spec: [ReportException], defined in node.cc: the
    caught error goes to the diagnostic stream. *)
Definition ReportException (e : Value) : M unit := emit (EvReportException e).

(** ** EventEmitter::Emit *)

(** The [for] loop over the clone; [n] bounds the iterations left, and is
    [listeners->Length() - i] at every entry. *)
Fixpoint Emit_loop (n : nat) (listeners : list Value) (i : nat)
    (handle_ : Obj) (argv : list Value) : M bool :=
  match n with
  | O => ret true
  | S n' =>
    match listeners !! i with
    | None => ret true
    | Some listener_v =>
      let* listener_f := gets (fun w => as_function w listener_v) in
      match listener_f with
      | None => Emit_loop n' listeners (S i) handle_ argv
      | Some listener =>
        let* r := invoke listener handle_ argv in
        match r with
        | Thrown e => run FatalException e then ret false
        | Returned _ => Emit_loop n' listeners (S i) handle_ argv
        end
      end
    end
  end.

Definition Emit (handle_ : Obj) (event : string) (argv : list Value) : M bool :=
  let* events_v := gets (fun w => Get w handle_ events_symbol) in
  match events_v with
  | VObject events =>
    let* listeners_v := gets (fun w => Get w events event) in
    let* listener_f := gets (fun w => as_function w listeners_v) in
    match listener_f with
    | Some listener =>
      let* r := invoke listener handle_ argv in
      match r with
      | Thrown e => run FatalException e then ret false
      | Returned _ => ret true
      end
    | None =>
      let* is_array := gets (fun w => IsArray w listeners_v) in
      if is_array then
        let* listeners := gets (fun w => Clone w listeners_v) in
        Emit_loop (length listeners) listeners 0 handle_ argv
      else ret false
    end
  | _ => ret false
  end.

(** ** EventSource *)

Definition print_frame (frame : StackFrame) : M unit :=
  fprintf_stderr (LFrame (function_name frame) (script_name frame)
                         (line_number frame) (column frame)).

Fixpoint print_frames (trace : StackTrace) : M unit :=
  match trace with
  | [] => ret tt
  | frame :: rest => run print_frame frame then print_frames rest
  end.

(** [PrintStack(count)]; the recursion follows [parent_source_] while
    [count < kAncestorStackLimit], so [fuel] starts above
    [kAncestorStackLimit - count]. *)
Fixpoint PrintStack_fuel (fuel : nat) (this : Ptr) (count : Z) : M unit :=
  let* s := deref this in
  match trace_ s with
  | None => ret tt
  | Some trace =>
    run fprintf_stderr LSeparator then
    run print_frames trace then
    match parent_source_ s with
    | Some parent_obj =>
      if count <? kAncestorStackLimit then
        match fuel with
        | O => ret tt
        | S fuel' =>
          let* parent := Unwrap parent_obj in
          PrintStack_fuel fuel' parent (count + 1)
        end
      else ret tt
    | None => ret tt
    end
  end.

Definition PrintStack (this : Ptr) (count : Z) : M unit :=
  PrintStack_fuel (Z.to_nat (kAncestorStackLimit - count)) this count.

Definition _MakeCallback (this : Ptr) (cb target : Obj) (argv : list Value)
    : M (option Value) :=
  let* cur := gets current_source in
  run assert (bool_decide (cur = None)) then
  run modify (set_current_source (Some this)) then
  let* r := invoke cb target argv in
  run modify (set_current_source None) then
  match r with
  | Thrown e =>
    run ReportException e then
    run PrintStack this 0 then
    exit 1
  | Returned v => ret (Some v)
  end.

(** The block that fills the statics [process] and [tick_cb].  An
    [undefined] [process] leaves an empty handle behind, and the [Get]
    through it takes the process down. *)
Definition lookup_tick_callback : M unit :=
  let* g := gets global in
  let* process_v := gets (fun w => Get w g process_symbol) in
  let* process_o := ToObject process_v in
  match process_o with
  | Some p =>
    run Persistent_New then
    run modify (set_process (Some p)) then
    let* tick_cb_v := gets (fun w => Get w p tick_callback_symbol) in
    let* tick_f := gets (fun w => as_function w tick_cb_v) in
    match tick_f with
    | None =>
      run fprintf_stderr (LText "process._tickCallback undefined. Bad.") then
      abort
    | Some t =>
      run Persistent_New then
      modify (set_tick_cb (Some t))
    end
  | None => abort
  end.

(** [if (tick_cb.IsEmpty() || process.IsEmpty()) { ... }] *)
Definition ensure_tick_callback : M unit :=
  let* t0 := gets tick_cb in
  let* p0 := gets process in
  if bool_decide (t0 = None) || bool_decide (p0 = None)
  then lookup_tick_callback
  else ret tt.

Definition MakeCallback (this : Ptr) (argv : list Value) : M (option Value) :=
  let* s := deref this in
  let* callback_v := gets (fun w => Get w (handle_ s) callback_symbol) in
  let* callback_f := gets (fun w => as_function w callback_v) in
  match callback_f with
  | None => ret None
  | Some callback =>
    let* ret0 := _MakeCallback this callback (handle_ s) argv in
    match ret0 with
    | None => ret ret0
    | Some _ =>
      run ensure_tick_callback then
      let* t := gets tick_cb in
      let* p := gets process in
      match t, p with
      | Some tick, Some proc => _MakeCallback this tick proc []
      | _, _ => abort
      end
    end
  end.

Definition ClearStack (this : Ptr) : M unit :=
  let* s := deref this in
  match trace_ s with
  | Some _ =>
    run Persistent_Dispose then
    update this (set_trace None)
  | None => ret tt
  end.

Definition RecordStack (this : Ptr) : M unit :=
  run ClearStack this then
  let* trace := gets (fun w => CurrentStackTrace w kFrameLimit) in
  run Persistent_New then
  run update this (set_trace (Some trace)) then
  let* cur := gets current_source in
  match cur with
  | Some c =>
    let* cs := deref c in
    run Persistent_New then
    update this (set_parent (Some (handle_ cs)))
  | None => ret tt
  end.

Definition DeleteParent (this : Ptr) : M unit :=
  let* s := deref this in
  match parent_source_ s with
  | Some _ =>
    run Persistent_Dispose then
    update this (set_parent None)
  | None => ret tt
  end.

Definition WeakParent (object : Obj) (data : Ptr) : M unit :=
  let* s := deref data in
  run assert (bool_decide (parent_source_ s = Some object)) then
  DeleteParent data.

Definition Active (this : Ptr) : M unit :=
  run Ref this then
  RecordStack this.

Definition Inactive (this : Ptr) : M unit :=
  run DeleteParent this then
  run ClearStack this then
  Unref this.

End Native.

(** The world once [lookup_tick_callback] has filled the two statics. *)
Definition tick_cached (proc tick : Obj) (w : World) : World :=
  {| heap := heap w; global := global w; js_stack := js_stack w;
     sources := sources w; current_source := current_source w;
     tick_cb := Some tick; process := Some proc;
     persistents := persistents w + 1 + 1 |}.

(** ** Reading a trace *)

(** The loop of [Emit] as a traversal of the clone, element by element. *)
Fixpoint Emit_each (Call : Obj -> Obj -> list Value -> World -> Completion CallResult)
    (listeners : list Value) (handle_ : Obj) (argv : list Value) : M bool :=
  match listeners with
  | [] => ret true
  | listener_v :: rest =>
    let* listener_f := gets (fun w => as_function w listener_v) in
    match listener_f with
    | None => Emit_each Call rest handle_ argv
    | Some listener =>
      let* r := invoke Call listener handle_ argv in
      match r with
      | Thrown e => run FatalException e then ret false
      | Returned _ => Emit_each Call rest handle_ argv
      end
    end
  end.

(** The functions a trace shows being called, in order. *)
Fixpoint called (t : list Event) : list Value :=
  match t with
  | [] => []
  | EvCall f _ _ :: t' => VObject f :: called t'
  | _ :: t' => called t'
  end.

Definition is_separator (e : Event) : bool :=
  match e with EvStderr LSeparator => true | _ => false end.

(** Number of stack sections a trace prints: each starts with the
    separator line. *)
Definition sections (t : list Event) : nat := length (filter is_separator t).

Definition frame_line (frame : StackFrame) : Event :=
  EvStderr (LFrame (function_name frame) (script_name frame)
                   (line_number frame) (column frame)).






Definition is_fatal (e : Event) : bool :=
  match e with EvFatalException _ => true | _ => false end.

(** An event that is a call is a call on [recv] with [argv]. *)
Definition calls_use (recv : Obj) (argv : list Value) (e : Event) : Prop :=
  match e with
  | EvCall _ r a => r = recv /\ a = argv
  | _ => True
  end.

(** The value stored for [event] has one of the two shapes [Emit] knows: a
    function or an array. *)
Definition recognized (w : World) (handle : Obj) (event : string) : bool :=
  match Get w handle events_symbol with
  | VObject events =>
    match as_function w (Get w events event) with
    | Some _ => true
    | None => IsArray w (Get w events event)
    end
  | _ => false
  end.

(** 1 for a handle that is set, 0 for an empty one. *)
Definition held {A} (h : option A) : Z :=
  match h with Some _ => 1 | None => 0 end.

(** ** A small world to run the code on *)

Module Demo.

Local Open Scope positive_scope.

Definition function_object : JsObject :=
  {| kind := KFunction; props := ∅; prototype := None;
     internal_field := None |}.

Definition array_object (elems : list Value) : JsObject :=
  {| kind := KArray elems; props := ∅; prototype := None;
     internal_field := None |}.

Definition plain_object (ps : list (string * Value)) (field : option Ptr) : JsObject :=
  {| kind := KPlain; props := list_to_map ps; prototype := None;
     internal_field := field |}.

Definition frame (fn : string) (line : Z) : StackFrame :=
  {| script_name := "timer.js"; function_name := fn;
     line_number := line; column := 1%Z |}.

(** Objects: 1 global, 2 process, 3 an emitter with its [_events] 4 and the
    listener arrays 5 (event x), 6 (event y), 7 (event z); functions 10 to
    14 and 20 to 22; 30 to 33 the host objects of the sources 1 to 4.  The
    events one and bad hold a single function, the event n a number. *)
Definition demo_heap : gmap Obj JsObject :=
  list_to_map
    [ (1, plain_object [("process", VObject 2)] None);
      (2, plain_object [("_tickCallback", VObject 21)] None);
      (3, plain_object [("_events", VObject 4)] None);
      (4, plain_object [("x", VObject 5); ("y", VObject 6);
                                 ("z", VObject 7); ("one", VObject 10);
                                 ("bad", VObject 11); ("n", VNumber 5%Z)] None);
      (5, array_object [VObject 10; VObject 11; VObject 12]);
      (6, array_object [VObject 13; VObject 10; VObject 12]);
      (7, array_object [VNumber 1%Z; VObject 4; VString "s"]);
      (10, function_object); (11, function_object);
      (12, function_object); (13, function_object);
      (14, function_object); (20, function_object);
      (21, function_object); (22, function_object);
      (30, plain_object [("callback", VObject 20)] (Some 1));
      (31, plain_object [("callback", VObject 20)] (Some 2));
      (32, plain_object [("callback", VObject 22)] (Some 3));
      (33, plain_object [] (Some 4)) ].

Definition idle (h : Obj) : EventSource :=
  {| handle_ := h; refs_ := 0%Z; trace_ := None; parent_source_ := None |}.

Definition active (h : Obj) (fn : string) (parent : option Obj) : EventSource :=
  {| handle_ := h; refs_ := 1%Z; trace_ := Some [frame fn 7%Z; frame "main" 1%Z];
     parent_source_ := parent |}.

Definition world_with (srcs : list (Ptr * EventSource)) (cur : option Ptr)
    (live : Z) : World :=
  {| heap := demo_heap; global := 1;
     js_stack := [frame "now" 3%Z; frame "main" 1%Z];
     sources := list_to_map srcs; current_source := cur;
     tick_cb := None; process := None; persistents := live |}.

(** Every source idle, nothing running. *)
Definition w_idle : World :=
  world_with [(1, idle 30); (2, idle 31);
              (3, idle 32); (4, idle 33)] None 0%Z.

(** Source 1 active, armed from inside source 2's callback, which has
    returned since. *)
Definition w_active : World :=
  world_with [(1, active 30 "arm" (Some 31));
              (2, idle 31)] None 2%Z.

(** Inside the callback of source 1. *)
Definition w_inside : World :=
  world_with [(1, idle 30); (2, idle 31)] (Some 1) 0%Z.

(** A chain: 1 was armed by 2, 2 by 3, 3 by 4. *)
Definition w_chain : World :=
  world_with [(1, active 30 "a" (Some 31));
              (2, active 31 "b" (Some 32));
              (3, active 32 "c" (Some 33));
              (4, active 33 "d" None)] None 7%Z.

(** [w_idle] once listener 13 has rewritten the live array of event y. *)
Definition w_rewritten : World :=
  set_heap (<[6 := array_object [VObject 13; VObject 10; VObject 14]]>
              demo_heap) w_idle.

(** [w_idle] inside the callback of source 1, and after it. *)
Definition w_running : World := set_current_source (Some 1) w_idle.
Definition w_returned : World := set_current_source None w_running.

(** Listeners without native re-entry: 11 throws, 13 rewrites the live
    array of event y (drops 12, appends 14), 20 returns 42, the others
    return [undefined]. *)
Definition Call_leaf (f recv : Obj) (argv : list Value) (w : World)
    : Completion CallResult :=
  match f with
  | 11 => Ret (Thrown (VString "boom")) w
  | 13 =>
    Ret (Returned VUndefined)
        (set_heap (<[6 :=
                       array_object [VObject 13; VObject 10; VObject 14]]>
                     (heap w)) w)
  | 20 => Ret (Returned (VNumber 42%Z)) w
  | _ => Ret (Returned VUndefined) w
  end.

(** As [Call_leaf], and function 22 invokes the callback of source 2 through
    [_MakeCallback], synchronously. *)
Definition Call_nested (f recv : Obj) (argv : list Value) (w : World)
    : Completion CallResult :=
  match f with
  | 22 =>
    match outcome_of (_MakeCallback Call_leaf 2%Z 2 20
                                    31 [] w) with
    | Ret r w' => Ret (Returned (default VUndefined r)) w'
    | Exit n w' => Exit n w'
    | Abort w' => Abort w'
    end
  | _ => Call_leaf f recv argv w
  end.


(** [w_idle] with three more objects: 40 holds a function under the name
    toString, 41 has no property of its own and 40 as prototype, and the
    emitter 42 has 41 as its [_events]. *)
Definition w_inherits : World :=
  set_heap
    (<[42 := plain_object [("_events", VObject 41)] None]>
       (<[41 := {| kind := KPlain; props := ∅; prototype := Some 40;
                   internal_field := None |}]>
          (<[40 := plain_object [("toString", VObject 10)] None]> demo_heap)))
    w_idle.

(** [w_chain] with a callback of source 1 that throws. *)
Definition w_throwing : World :=
  set_heap (<[30 := plain_object [("callback", VObject 11)] (Some 1)]>
              demo_heap) w_chain.

(** [w_idle] with the statics filled, the drain callable being the
    throwing function 11. *)
Definition w_bad_tick : World := tick_cached 2 11 w_idle.

(** The two worlds an emission of event y goes through. *)
Definition idle_or_rewritten (w : World) : Prop :=
  w = w_idle \/ w = w_rewritten.

End Demo.

(** * Properties *)

(** ** The monad *)

Lemma bind_ret_l {A B} (a : A) (k : A -> M B) w : bind (ret a) k w = k a w.
Proof. unfold bind, ret. by destruct (k a w). Qed.

Lemma bind_gets {A B} (f : World -> A) (k : A -> M B) w :
  bind (gets f) k w = k (f w) w.
Proof. unfold bind, gets. by destruct (k (f w) w). Qed.

Lemma bind_modify {B} (f : World -> World) (k : unit -> M B) w :
  bind (modify f) k w = k tt (f w).
Proof. unfold bind, modify. by destruct (k tt (f w)). Qed.

Lemma bind_emit {B} (e : Event) (k : unit -> M B) w :
  bind (emit e) k w = (e :: trace_of (k tt w), outcome_of (k tt w)).
Proof. unfold bind, emit. by destruct (k tt w). Qed.

Lemma bind_assoc {A B C} (m : M A) (k : A -> M B) (k' : B -> M C) w :
  bind (bind m k) k' w = bind m (fun a => bind (k a) k') w.
Proof.
  unfold bind. destruct (m w) as [t1 [a w1|n w1|w1]]; try reflexivity.
  destruct (k a w1) as [t2 [b w2|n w2|w2]]; try reflexivity.
  destruct (k' b w2) as [t3 c]. by rewrite app_assoc.
Qed.

Lemma bind_ext {A B} (m : M A) (k k' : A -> M B) w :
  (forall a w', k a w' = k' a w') -> bind m k w = bind m k' w.
Proof.
  intros Hk. unfold bind. destruct (m w) as [t1 [a w1|n w1|w1]]; try reflexivity.
  by rewrite Hk.
Qed.

Lemma bind_Ret {A B} (m : M A) (k : A -> M B) w t a w' :
  m w = (t, Ret a w') ->
  bind m k w = (t ++ trace_of (k a w'), outcome_of (k a w')).
Proof. intros Hm. unfold bind. rewrite Hm. by destruct (k a w'). Qed.

Lemma bind_Abort {A B} (m : M A) (k : A -> M B) w t w' :
  m w = (t, Abort w') -> bind m k w = (t, Abort w').
Proof. intros Hm. unfold bind. by rewrite Hm. Qed.

(** ** Handles *)

Lemma as_function_object w v f : as_function w v = Some f -> v = VObject f.
Proof.
  destruct v as [| | |o]; simpl; try discriminate.
  destruct (IsFunction w (VObject o)); [|discriminate]. by intros [= ->].
Qed.

Lemma as_function_array w v elems :
  kind_of w v = Some (KArray elems) -> as_function w v = None.
Proof.
  intros Hk. destruct v as [| | |o]; try reflexivity.
  unfold as_function, IsFunction. by rewrite Hk.
Qed.

Lemma Get_own w o js key v :
  heap w !! o = Some js -> props js !! key = Some v -> Get w o key = v.
Proof.
  intros Ho Hk. unfold Get. destruct (size (heap w)); simpl; by rewrite Ho, Hk.
Qed.

Lemma Get_inherited w o js key p pjs v :
  heap w !! o = Some js -> props js !! key = None -> prototype js = Some p ->
  heap w !! p = Some pjs -> props pjs !! key = Some v ->
  (1 < size (heap w))%nat ->
  Get w o key = v.
Proof.
  intros Ho Hk Hp Hpo Hpk Hsize. unfold Get.
  destruct (size (heap w)) as [|[|n]]; [lia..|].
  simpl. rewrite Ho, Hk, Hp. destruct n; simpl; by rewrite Hpo, Hpk.
Qed.

Lemma Get_absent w o js key :
  heap w !! o = Some js -> props js !! key = None -> prototype js = None ->
  Get w o key = VUndefined.
Proof.
  intros Ho Hk Hp. unfold Get.
  destruct (size (heap w)); simpl; by rewrite Ho, Hk, Hp.
Qed.

(** Fuel beyond the length of the chain changes nothing. *)
Lemma Get_fuel_enough n : forall m h o key,
  chain_ends n h o = true -> (n <= m)%nat ->
  Get_fuel m h o key = Get_fuel n h o key.
Proof.
  induction n as [|n IH]; intros m h o key Hends Hle.
  - destruct m; simpl in *; destruct (h !! o) as [js|]; try done;
      destruct (props js !! key); try done;
      by destruct (prototype js).
  - destruct m as [|m]; [lia|]. simpl in *.
    destruct (h !! o) as [js|]; [|done].
    destruct (props js !! key); [done|].
    destruct (prototype js) as [p|]; [|done]. apply IH; [done|lia].
Qed.

(** A [process] that is a number, a string or [undefined] ends the lookup in
    an abort, and nothing is called. *)
Lemma lookup_tick_callback_primitive w :
  IsObject (Get w (global w) process_symbol) = false ->
  exists t w', lookup_tick_callback w = (t, Abort w') /\ called t = [].
Proof.
  intros Hprim. unfold lookup_tick_callback. rewrite !bind_gets.
  destruct (Get w (global w) process_symbol) as [|n|str|proc]; [| | |done].
  - cbn [ToObject]. rewrite bind_ret_l. by eexists _, _.
  - cbn [ToObject]. rewrite bind_assoc, bind_gets, bind_assoc, bind_modify.
    rewrite bind_ret_l. unfold Persistent_New.
    rewrite !bind_modify, !bind_gets.
    erewrite Get_absent;
      [|cbn [heap set_heap set_process set_persistents];
        apply lookup_insert_eq|reflexivity..].
    unfold fprintf_stderr. cbn [as_function]. rewrite bind_emit.
    by eexists _, _.
  - cbn [ToObject]. rewrite bind_assoc, bind_gets, bind_assoc, bind_modify.
    rewrite bind_ret_l. unfold Persistent_New.
    rewrite !bind_modify, !bind_gets.
    erewrite Get_absent;
      [|cbn [heap set_heap set_process set_persistents];
        apply lookup_insert_eq|reflexivity..].
    unfold fprintf_stderr. cbn [as_function]. rewrite bind_emit.
    by eexists _, _.
Qed.

Section Emitter.

Variable Call : Obj -> Obj -> list Value -> World -> Completion CallResult.

(** The counted loop visits the clone from index [i] on: the bound [n] never
    runs out before the index reaches the length. *)
Lemma Emit_loop_each n : forall (listeners : list Value) (i : nat) handle argv w,
  (length listeners - i <= n)%nat ->
  Emit_loop Call n listeners i handle argv w
  = Emit_each Call (drop i listeners) handle argv w.
Proof.
  induction n as [|n IH]; intros listeners i handle argv w Hn.
  - rewrite drop_ge by lia. reflexivity.
  - simpl. destruct (listeners !! i) as [v|] eqn:Hv.
    + rewrite (drop_S _ _ _ Hv). simpl. rewrite !bind_gets.
      destruct (as_function w v) as [f|].
      * apply bind_ext. intros [r|e] w'; [|reflexivity]. apply IH. lia.
      * apply IH. lia.
    + apply lookup_ge_None_1 in Hv. rewrite drop_ge by lia. reflexivity.
Qed.

Lemma Emit_loop_all (listeners : list Value) handle argv w :
  Emit_loop Call (length listeners) listeners 0 handle argv w
  = Emit_each Call listeners handle argv w.
Proof. rewrite Emit_loop_each by lia. by rewrite drop_0. Qed.

(** Running over [pre ++ rest] is running over [pre] and, unless a listener
    of [pre] threw, over [rest] from where [pre] left the world. *)
Lemma Emit_each_app (pre rest : list Value) handle argv : forall w,
  Emit_each Call (pre ++ rest) handle argv w
  = bind (Emit_each Call pre handle argv)
         (fun b => if b then Emit_each Call rest handle argv else ret false) w.
Proof.
  induction pre as [|v pre IH]; intros w.
  - simpl. by rewrite bind_ret_l.
  - simpl. rewrite bind_assoc, !bind_gets.
    destruct (as_function w v) as [f|]; [|apply IH].
    rewrite bind_assoc. apply bind_ext. intros [r|e] w'; [apply IH|].
    rewrite bind_assoc. unfold FatalException. rewrite !bind_emit.
    by rewrite !bind_ret_l.
Qed.

(** [Emit] on an event whose stored value is an array runs the loop over the
    elements the array holds at entry. *)
Lemma Emit_array w handle events event arr elems argv :
  Get w handle events_symbol = VObject events ->
  Get w events event = VObject arr ->
  kind_of w (VObject arr) = Some (KArray elems) ->
  Emit Call handle event argv w = Emit_each Call elems handle argv w.
Proof.
  intros Hev Hl Hk. unfold Emit. rewrite bind_gets, Hev, !bind_gets, Hl.
  rewrite (as_function_array _ _ _ Hk), bind_gets.
  unfold IsArray. rewrite Hk, bind_gets. unfold Clone. rewrite Hk.
  apply Emit_loop_all.
Qed.

Lemma called_Emit_each (listeners : list Value) handle argv : forall w,
  sublist (called (trace_of (Emit_each Call listeners handle argv w))) listeners.
Proof.
  induction listeners as [|v rest IH]; intros w; simpl.
  - constructor.
  - rewrite bind_gets. destruct (as_function w v) as [f|] eqn:Hf.
    + apply as_function_object in Hf as ->.
      unfold bind, invoke.
      destruct (Call f handle argv w) as [[r|e] w1|n w1|w1]; simpl.
      * specialize (IH w1).
        destruct (Emit_each Call rest handle argv w1) as [t2 c]. simpl in *.
        by apply sublist_skip.
      * apply sublist_skip, sublist_nil_l.
      * apply sublist_skip, sublist_nil_l.
      * apply sublist_skip, sublist_nil_l.
    + apply sublist_cons, IH.
Qed.

Lemma Emit_each_skip (listeners : list Value) handle argv : forall w,
  (forall v, v ∈ listeners -> as_function w v = None) ->
  Emit_each Call listeners handle argv w = ([], Ret true w).
Proof.
  induction listeners as [|v rest IH]; intros w Hnone; [reflexivity|].
  simpl. rewrite bind_gets, (Hnone v) by constructor.
  apply IH. intros v' Hv'. apply Hnone. by constructor.
Qed.

(** The branches of [Emit] that call nothing: no [_events] object, or a
    stored value that is neither a function nor an array. *)
Lemma Emit_without_events w handle event argv :
  IsObject (Get w handle events_symbol) = false ->
  Emit Call handle event argv w = ([], Ret false w).
Proof.
  intros Hev. unfold Emit. rewrite bind_gets.
  by destruct (Get w handle events_symbol).
Qed.

Lemma Emit_unrecognized w handle events event argv :
  Get w handle events_symbol = VObject events ->
  as_function w (Get w events event) = None ->
  IsArray w (Get w events event) = false ->
  Emit Call handle event argv w = ([], Ret false w).
Proof.
  intros Hev Hf Ha. unfold Emit.
  by rewrite bind_gets, Hev, !bind_gets, Hf, bind_gets, Ha.
Qed.

(** The one-listener branch. *)
Lemma Emit_single w handle events event listener argv :
  Get w handle events_symbol = VObject events ->
  as_function w (Get w events event) = Some listener ->
  Emit Call handle event argv w
  = match Call listener handle argv w with
    | Ret (Returned _) w1 => ([EvCall listener handle argv], Ret true w1)
    | Ret (Thrown e) w1 =>
      ([EvCall listener handle argv; EvFatalException e], Ret false w1)
    | Exit n w1 => ([EvCall listener handle argv], Exit n w1)
    | Abort w1 => ([EvCall listener handle argv], Abort w1)
    end.
Proof.
  intros Hev Hf. unfold Emit. rewrite bind_gets, Hev, !bind_gets, Hf.
  unfold bind, invoke.
  by destruct (Call listener handle argv w) as [[v|e] w1|n w1|w1].
Qed.

(** C4: during an emission over a snapshot [pre ++ g :: post], once the
    listeners of [pre] have run and [g] raises, [Emit] calls [g], reports the
    error, and returns false at once: the trace ends with the report, the
    world is the one [g] left, and no listener of [post] is called. *)
Theorem Emit_stops_at_first_throw w handle events event arr argv
    (pre post : list Value) (g : Obj) t1 w1 e w2 :
  Get w handle events_symbol = VObject events ->
  Get w events event = VObject arr ->
  kind_of w (VObject arr) = Some (KArray (pre ++ VObject g :: post)) ->
  Emit_loop Call (length pre) pre 0 handle argv w = (t1, Ret true w1) ->
  as_function w1 (VObject g) = Some g ->
  Call g handle argv w1 = Ret (Thrown e) w2 ->
  Emit Call handle event argv w
  = (t1 ++ [EvCall g handle argv; EvFatalException e], Ret false w2).
Proof.
  intros Hev Hl Hk Hpre Hg Hthrow.
  rewrite (Emit_array _ _ _ _ _ _ _ Hev Hl Hk), Emit_each_app.
  rewrite Emit_loop_all in Hpre. unfold bind at 1. rewrite Hpre.
  cbv beta iota. cbn [Emit_each]. rewrite bind_gets, Hg.
  unfold bind, invoke. rewrite Hthrow. reflexivity.
Qed.

(** C5: an emission runs over the elements the listener array held when
    [Emit] was entered, whatever the listeners do to the live registry: the
    functions called form a subsequence of that snapshot (nothing appended
    later is called), and a listener [lk] of the snapshot is called as soon
    as the listeners before it have returned, in whatever world [w1] they
    left, even one whose live array no longer holds [lk]. *)
Theorem Emit_snapshot_isolation w handle events event arr elems argv :
  Get w handle events_symbol = VObject events ->
  Get w events event = VObject arr ->
  kind_of w (VObject arr) = Some (KArray elems) ->
  sublist (called (trace_of (Emit Call handle event argv w))) elems /\
  (forall pre lk post t1 w1,
     elems = pre ++ VObject lk :: post ->
     Emit_loop Call (length pre) pre 0 handle argv w = (t1, Ret true w1) ->
     as_function w1 (VObject lk) = Some lk ->
     exists rest,
       trace_of (Emit Call handle event argv w)
       = t1 ++ EvCall lk handle argv :: rest).
Proof.
  intros Hev Hl Hk. rewrite (Emit_array _ _ _ _ _ _ _ Hev Hl Hk). split.
  - apply called_Emit_each.
  - intros pre lk post t1 w1 -> Hpre Hlk.
    rewrite Emit_each_app. rewrite Emit_loop_all in Hpre.
    unfold bind at 1. rewrite Hpre.
    cbv beta iota. cbn [Emit_each]. rewrite bind_gets, Hlk.
    unfold bind, invoke.
    destruct (Call lk handle argv w1) as [[r|e'] w2|n w2|w2]; simpl.
    + destruct (Emit_each Call post handle argv w2) as [t2 c]. simpl. eauto.
    + eauto.
    + eauto.
    + eauto.
Qed.

(** C10: when the value stored for the event is an array none of whose
    elements is callable (the empty array included), [Emit] calls nothing,
    leaves the world as it was, and returns true; and an element that is not
    an object can be dropped from any snapshot without changing what the
    loop does. *)
Theorem Emit_array_without_callable_is_true w handle events event arr elems argv :
  Get w handle events_symbol = VObject events ->
  Get w events event = VObject arr ->
  kind_of w (VObject arr) = Some (KArray elems) ->
  Forall (fun v => as_function w v = None) elems ->
  Emit Call handle event argv w = ([], Ret true w) /\
  (forall (pre post : list Value) v w',
     IsObject v = false ->
     Emit_loop Call (length (pre ++ v :: post)) (pre ++ v :: post) 0
               handle argv w'
     = Emit_loop Call (length (pre ++ post)) (pre ++ post) 0 handle argv w').
Proof.
  intros Hev Hl Hk Hnone. split.
  - rewrite (Emit_array _ _ _ _ _ _ _ Hev Hl Hk).
    apply Emit_each_skip. by apply Forall_forall.
  - intros pre post v w' Hv. rewrite !Emit_loop_all, !Emit_each_app.
    apply bind_ext. intros [|] w''; [|reflexivity].
    simpl. rewrite bind_gets. by destruct v.
Qed.

End Emitter.

(** ** Native objects *)

Lemma bind_deref {B} this s (k : EventSource -> M B) w :
  sources w !! this = Some s -> bind (deref this) k w = k s w.
Proof. intros Hs. unfold bind, deref. rewrite Hs. by destruct (k s w). Qed.

Lemma bind_deref_dangling {B} this (k : EventSource -> M B) w :
  sources w !! this = None -> bind (deref this) k w = ([], Abort w).
Proof. intros Hs. unfold bind, deref. by rewrite Hs. Qed.

Lemma bind_Unwrap {B} o p (k : Ptr -> M B) w :
  heap w !! o ≫= internal_field = Some p -> bind (Unwrap o) k w = k p w.
Proof. intros Ho. unfold bind, Unwrap. rewrite Ho. by destruct (k p w). Qed.

Lemma print_frames_trace (trace : StackTrace) w :
  print_frames trace w = (map frame_line trace, Ret tt w).
Proof.
  induction trace as [|frame rest IH]; [reflexivity|].
  simpl. unfold print_frame, fprintf_stderr. rewrite bind_emit, IH.
  reflexivity.
Qed.

Lemma bind_print_frames {B} (trace : StackTrace) (k : unit -> M B) w :
  bind (print_frames trace) k w
  = (map frame_line trace ++ trace_of (k tt w), outcome_of (k tt w)).
Proof. unfold bind. rewrite print_frames_trace. by destruct (k tt w). Qed.

Lemma sections_frames (trace : StackTrace) :
  sections (map frame_line trace) = 0%nat.
Proof. induction trace as [|frame rest IH]; [reflexivity|exact IH]. Qed.

Lemma sections_app (t1 t2 : list Event) :
  sections (t1 ++ t2) = (sections t1 + sections t2)%nat.
Proof. unfold sections. by rewrite filter_app, length_app. Qed.






Section Source.

Variable Call : Obj -> Obj -> list Value -> World -> Completion CallResult.
Variable kFrameLimit : Z.
Variable kAncestorStackLimit : Z.


(** [PrintStack] only reads: it ends where it started, or in the crash of a
    dangling pointer. *)
Lemma PrintStack_fuel_world fuel : forall this count w,
  outcome_of (PrintStack_fuel kAncestorStackLimit fuel this count w) = Ret tt w \/
  outcome_of (PrintStack_fuel kAncestorStackLimit fuel this count w) = Abort w.
Proof.
  induction fuel as [|fuel IH]; intros this count w.
  - simpl. destruct (sources w !! this) as [s|] eqn:Hs;
      [rewrite (bind_deref _ _ _ _ Hs)|rewrite bind_deref_dangling by done; by right].
    destruct (trace_ s) as [trace|]; [|by left].
    unfold fprintf_stderr. rewrite bind_emit, bind_print_frames. simpl.
    destruct (parent_source_ s); [destruct (count <? kAncestorStackLimit)|]; by left.
  - simpl. destruct (sources w !! this) as [s|] eqn:Hs;
      [rewrite (bind_deref _ _ _ _ Hs)|rewrite bind_deref_dangling by done; by right].
    destruct (trace_ s) as [trace|]; [|by left].
    unfold fprintf_stderr. rewrite bind_emit, bind_print_frames. simpl.
    destruct (parent_source_ s) as [o|]; [|by left].
    destruct (count <? kAncestorStackLimit); [|by left].
    destruct ((heap w !! o) ≫= internal_field) as [p|] eqn:Ho.
    + rewrite (bind_Unwrap _ _ _ _ Ho). apply IH.
    + unfold bind, Unwrap. rewrite Ho. by right.
Qed.

Lemma PrintStack_world this count w :
  outcome_of (PrintStack kAncestorStackLimit this count w) = Ret tt w \/
  outcome_of (PrintStack kAncestorStackLimit this count w) = Abort w.
Proof. apply PrintStack_fuel_world. Qed.



(** *** _MakeCallback *)

Lemma _MakeCallback_nested this cb target argv w outer :
  current_source w = Some outer ->
  _MakeCallback Call kAncestorStackLimit this cb target argv w = ([], Abort w).
Proof.
  intros Hcur. unfold _MakeCallback. rewrite bind_gets, Hcur.
  by rewrite bool_decide_false.
Qed.

Lemma _MakeCallback_returned this cb target argv w v w1 :
  current_source w = None ->
  Call cb target argv (set_current_source (Some this) w) = Ret (Returned v) w1 ->
  _MakeCallback Call kAncestorStackLimit this cb target argv w
  = ([EvCall cb target argv], Ret (Some v) (set_current_source None w1)).
Proof.
  intros Hcur Hcall. unfold _MakeCallback. rewrite bind_gets, Hcur.
  rewrite bool_decide_true by done. simpl assert.
  rewrite bind_ret_l, bind_modify. unfold bind at 1, invoke. rewrite Hcall.
  by rewrite bind_modify.
Qed.

Lemma _MakeCallback_thrown this cb target argv w e w1 :
  current_source w = None ->
  Call cb target argv (set_current_source (Some this) w) = Ret (Thrown e) w1 ->
  _MakeCallback Call kAncestorStackLimit this cb target argv w
  = (EvCall cb target argv :: EvReportException e
       :: trace_of (PrintStack kAncestorStackLimit this 0
                               (set_current_source None w1)),
     match outcome_of (PrintStack kAncestorStackLimit this 0
                                  (set_current_source None w1)) with
     | Ret _ w' => Exit 1 w'
     | Exit n w' => Exit n w'
     | Abort w' => Abort w'
     end).
Proof.
  intros Hcur Hcall. unfold _MakeCallback. rewrite bind_gets, Hcur.
  rewrite bool_decide_true by done. simpl assert.
  rewrite bind_ret_l, bind_modify. unfold bind at 1, invoke. rewrite Hcall.
  rewrite bind_modify. unfold ReportException. rewrite bind_emit.
  unfold bind, exit.
  destruct (PrintStack kAncestorStackLimit this 0 (set_current_source None w1))
    as [t [[] w'|n w'|w']]; simpl; by rewrite ?app_nil_r.
Qed.

(** C7: [_MakeCallback] entered while some source is current fails its
    assertion, before the callable runs.  Entered with no source current, it
    runs the callable in a world whose [current_source] is the invoked
    source, and puts [current_source] back to null as soon as the callable
    comes back: a returned value is handed on in that world, and a thrown
    error is reported, and the stacks printed, in that world, after which the
    process ends without returning. *)
Theorem _MakeCallback_current_source_discipline this cb target argv w :
  (forall outer, current_source w = Some outer ->
     _MakeCallback Call kAncestorStackLimit this cb target argv w
     = ([], Abort w)) /\
  (current_source w = None ->
   current_source (set_current_source (Some this) w) = Some this /\
   (forall v w1,
      Call cb target argv (set_current_source (Some this) w)
      = Ret (Returned v) w1 ->
      _MakeCallback Call kAncestorStackLimit this cb target argv w
      = ([EvCall cb target argv], Ret (Some v) (set_current_source None w1)) /\
      current_source (set_current_source None w1) = None) /\
   (forall e w1,
      Call cb target argv (set_current_source (Some this) w)
      = Ret (Thrown e) w1 ->
      let r := _MakeCallback Call kAncestorStackLimit this cb target argv w in
      trace_of r
      = EvCall cb target argv :: EvReportException e
          :: trace_of (PrintStack kAncestorStackLimit this 0
                                  (set_current_source None w1)) /\
      (outcome_of r = Exit 1 (set_current_source None w1) \/
       outcome_of r = Abort (set_current_source None w1)) /\
      current_source (world_of (outcome_of r)) = None)).
Proof.
  split; [intros outer Hcur; by eapply _MakeCallback_nested|].
  intros Hcur. split; [done|]. split.
  - intros v w1 Hcall. by rewrite (_MakeCallback_returned _ _ _ _ _ _ _ Hcur Hcall).
  - intros e w1 Hcall r. subst r.
    rewrite (_MakeCallback_thrown _ _ _ _ _ _ _ Hcur Hcall). simpl.
    split; [done|].
    destruct (PrintStack_world this 0 (set_current_source None w1)) as [-> | ->];
      simpl; auto.
Qed.

(** C2, as the code has it: entered with no source current, [_MakeCallback]
    shows the callable the invoked source as current and, once the callable
    has returned, leaves [current_source] null, the value it held at entry.
    Entered while a source is current (a call nested through this primitive)
    it fails the entry assertion and the callable is never run: no outer
    source is ever put back. *)
Theorem _MakeCallback_restores_null_only this cb target argv w :
  (current_source w = None ->
   forall v w1,
     Call cb target argv (set_current_source (Some this) w)
     = Ret (Returned v) w1 ->
     current_source (set_current_source (Some this) w) = Some this /\
     exists wf,
       _MakeCallback Call kAncestorStackLimit this cb target argv w
       = ([EvCall cb target argv], Ret (Some v) wf) /\
       current_source wf = current_source w) /\
  (forall outer,
     current_source w = Some outer ->
     _MakeCallback Call kAncestorStackLimit this cb target argv w
     = ([], Abort w) /\
     called (trace_of (_MakeCallback Call kAncestorStackLimit this cb target
                                     argv w)) = []).
Proof.
  split.
  - intros Hcur v w1 Hcall. split; [done|].
    exists (set_current_source None w1).
    by rewrite (_MakeCallback_returned _ _ _ _ _ _ _ Hcur Hcall), Hcur.
  - intros outer Hcur. by rewrite (_MakeCallback_nested _ _ _ _ _ _ Hcur).
Qed.

(** *** MakeCallback *)

Lemma ensure_tick_callback_cached w tick proc :
  tick_cb w = Some tick -> process w = Some proc ->
  ensure_tick_callback w = ([], Ret tt w).
Proof.
  intros Ht Hp. unfold ensure_tick_callback. rewrite !bind_gets, Ht, Hp.
  by rewrite !bool_decide_false.
Qed.

Lemma ensure_tick_callback_test w :
  tick_cb w = None \/ process w = None ->
  ensure_tick_callback w = lookup_tick_callback w.
Proof.
  intros Hempty. unfold ensure_tick_callback. rewrite !bind_gets.
  destruct Hempty as [-> | ->].
  - by rewrite bool_decide_true.
  - rewrite (bool_decide_true (None = None)) by done. by rewrite orb_true_r.
Qed.

Lemma ensure_tick_callback_lookup w proc tick :
  tick_cb w = None \/ process w = None ->
  Get w (global w) process_symbol = VObject proc ->
  as_function w (Get w proc tick_callback_symbol) = Some tick ->
  ensure_tick_callback w = ([], Ret tt (tick_cached proc tick w)).
Proof.
  intros Hempty Hproc Htick. rewrite ensure_tick_callback_test by done.
  unfold lookup_tick_callback. rewrite !bind_gets, Hproc.
  cbn [ToObject]. rewrite bind_ret_l.
  unfold Persistent_New. rewrite !bind_modify, !bind_gets.
  change (as_function _ (Get _ proc tick_callback_symbol))
    with (as_function w (Get w proc tick_callback_symbol)).
  rewrite Htick, bind_modify. reflexivity.
Qed.

Lemma ensure_tick_callback_missing w :
  tick_cb w = None \/ process w = None ->
  (forall proc, Get w (global w) process_symbol = VObject proc ->
                as_function w (Get w proc tick_callback_symbol) = None) ->
  exists t w', ensure_tick_callback w = (t, Abort w') /\ called t = [].
Proof.
  intros Hempty Hmissing. rewrite ensure_tick_callback_test by done.
  destruct (Get w (global w) process_symbol) as [| | |proc] eqn:Hproc;
    try (apply lookup_tick_callback_primitive; by rewrite Hproc).
  unfold lookup_tick_callback. rewrite !bind_gets, Hproc.
  cbn [ToObject]. rewrite bind_ret_l.
  unfold Persistent_New. rewrite !bind_modify, !bind_gets.
  change (as_function _ (Get _ proc tick_callback_symbol))
    with (as_function w (Get w proc tick_callback_symbol)).
  rewrite (Hmissing proc eq_refl). unfold fprintf_stderr. rewrite bind_emit.
  by eexists _, _.
Qed.

Lemma lookup_tick_callback_Ret w t w2 :
  lookup_tick_callback w = (t, Ret tt w2) ->
  t = [] /\ current_source w2 = current_source w /\
  is_Some (tick_cb w2) /\ is_Some (process w2).
Proof.
  destruct (Get w (global w) process_symbol) as [| | |proc] eqn:Hproc;
    try (intros Hrun;
         destruct (lookup_tick_callback_primitive w) as (t' & w' & Habort & _);
         [by rewrite Hproc|by rewrite Habort in Hrun]).
  unfold lookup_tick_callback. rewrite !bind_gets, Hproc.
  cbn [ToObject]. rewrite bind_ret_l.
  unfold Persistent_New. rewrite !bind_modify, !bind_gets.
  destruct (as_function _ _) as [tick'|].
  - rewrite bind_modify. intros [= <- <-]. simpl. eauto.
  - unfold fprintf_stderr. rewrite bind_emit. intros [=].
Qed.

(** When the block returns it has printed nothing, both statics are set and
    [current_source] is untouched. *)
Lemma ensure_tick_callback_Ret w t w2 :
  ensure_tick_callback w = (t, Ret tt w2) ->
  t = [] /\ current_source w2 = current_source w /\
  is_Some (tick_cb w2) /\ is_Some (process w2).
Proof.
  destruct (tick_cb w) as [tick|] eqn:Ht; [destruct (process w) as [proc|] eqn:Hp|].
  - rewrite (ensure_tick_callback_cached _ _ _ Ht Hp). intros [= <- <-].
    rewrite Ht, Hp. eauto.
  - rewrite ensure_tick_callback_test by auto. apply lookup_tick_callback_Ret.
  - rewrite ensure_tick_callback_test by auto. apply lookup_tick_callback_Ret.
Qed.

(** [MakeCallback] up to the point where its callback has returned. *)
Lemma MakeCallback_after_callback this argv w s cb v w1 :
  sources w !! this = Some s ->
  as_function w (Get w (handle_ s) callback_symbol) = Some cb ->
  current_source w = None ->
  Call cb (handle_ s) argv (set_current_source (Some this) w)
  = Ret (Returned v) w1 ->
  MakeCallback Call kAncestorStackLimit this argv w
  = (EvCall cb (handle_ s) argv
       :: trace_of
            ((run ensure_tick_callback then
              let* t := gets tick_cb in
              let* p := gets process in
              match t, p with
              | Some tick, Some proc =>
                _MakeCallback Call kAncestorStackLimit this tick proc []
              | _, _ => abort
              end) (set_current_source None w1)),
     outcome_of
       ((run ensure_tick_callback then
         let* t := gets tick_cb in
         let* p := gets process in
         match t, p with
         | Some tick, Some proc =>
           _MakeCallback Call kAncestorStackLimit this tick proc []
         | _, _ => abort
         end) (set_current_source None w1))).
Proof.
  intros Hs Hcb Hcur Hcall. unfold MakeCallback.
  rewrite (bind_deref _ _ _ _ Hs), !bind_gets, Hcb.
  unfold bind at 1. rewrite (_MakeCallback_returned _ _ _ _ _ _ _ Hcur Hcall).
  cbv beta iota.
  by destruct (bind ensure_tick_callback _ (set_current_source None w1)).
Qed.

(** [MakeCallback] once the callback has returned and the drain callable is
    at hand: what is left is the drain call. *)
Lemma MakeCallback_drain this argv w s cb v w1 w2 tick proc :
  sources w !! this = Some s ->
  as_function w (Get w (handle_ s) callback_symbol) = Some cb ->
  current_source w = None ->
  Call cb (handle_ s) argv (set_current_source (Some this) w)
  = Ret (Returned v) w1 ->
  ensure_tick_callback (set_current_source None w1) = ([], Ret tt w2) ->
  tick_cb w2 = Some tick ->
  process w2 = Some proc ->
  MakeCallback Call kAncestorStackLimit this argv w
  = (EvCall cb (handle_ s) argv
       :: trace_of (_MakeCallback Call kAncestorStackLimit this tick proc [] w2),
     outcome_of (_MakeCallback Call kAncestorStackLimit this tick proc [] w2)).
Proof.
  intros Hs Hcb Hcur Hcall Hensure Htick Hproc.
  rewrite (MakeCallback_after_callback _ _ _ _ _ _ _ Hs Hcb Hcur Hcall).
  rewrite (bind_Ret _ _ _ _ _ _ Hensure).
  cbn [trace_of outcome_of fst snd app].
  by rewrite !bind_gets, Htick, Hproc.
Qed.

(** With the drain callable at hand and returning, its value is what
    [MakeCallback] returns. *)
Lemma MakeCallback_drain_returned this argv w s cb v w1 w2 tick proc v' w3 :
  sources w !! this = Some s ->
  as_function w (Get w (handle_ s) callback_symbol) = Some cb ->
  current_source w = None ->
  Call cb (handle_ s) argv (set_current_source (Some this) w)
  = Ret (Returned v) w1 ->
  ensure_tick_callback (set_current_source None w1) = ([], Ret tt w2) ->
  tick_cb w2 = Some tick ->
  process w2 = Some proc ->
  Call tick proc [] (set_current_source (Some this) w2) = Ret (Returned v') w3 ->
  MakeCallback Call kAncestorStackLimit this argv w
  = ([EvCall cb (handle_ s) argv; EvCall tick proc []],
     Ret (Some v') (set_current_source None w3)).
Proof.
  intros Hs Hcb Hcur Hcall Hensure Htick Hproc Hdrain.
  rewrite (MakeCallback_drain _ _ _ _ _ _ _ _ _ _ Hs Hcb Hcur Hcall Hensure
             Htick Hproc).
  apply ensure_tick_callback_Ret in Hensure as (_ & Hcur2 & _).
  by rewrite (_MakeCallback_returned _ _ _ _ _ _ _ Hcur2 Hdrain).
Qed.

(** C1, as the code has it: when the callback returns [v] and the drain
    callable, once resolved, returns [v'], [MakeCallback] hands its caller
    [v'], the value of the drain call; [v] is dropped. *)
Theorem MakeCallback_returns_drain_result this argv w s cb v w1 w2 tick proc v' w3 :
  sources w !! this = Some s ->
  as_function w (Get w (handle_ s) callback_symbol) = Some cb ->
  current_source w = None ->
  Call cb (handle_ s) argv (set_current_source (Some this) w)
  = Ret (Returned v) w1 ->
  ensure_tick_callback (set_current_source None w1) = ([], Ret tt w2) ->
  tick_cb w2 = Some tick ->
  process w2 = Some proc ->
  Call tick proc [] (set_current_source (Some this) w2) = Ret (Returned v') w3 ->
  MakeCallback Call kAncestorStackLimit this argv w
  = ([EvCall cb (handle_ s) argv; EvCall tick proc []],
     Ret (Some v') (set_current_source None w3)).
Proof. apply MakeCallback_drain_returned. Qed.

(** C6: after the callback of [MakeCallback] has returned, the drain
    callable is called once, with no arguments and [process] as receiver,
    and [MakeCallback] returns after it.  With both statics set the cached
    callable is used as it is; otherwise [process._tickCallback] is looked up
    off the global object, stored in the statics before the call, and
    called; and when that lookup yields no function the process aborts
    without any further call. *)
Theorem MakeCallback_drains_once this argv w s cb v w1 :
  sources w !! this = Some s ->
  as_function w (Get w (handle_ s) callback_symbol) = Some cb ->
  current_source w = None ->
  Call cb (handle_ s) argv (set_current_source (Some this) w)
  = Ret (Returned v) w1 ->
  let w1' := set_current_source None w1 in
  (forall tick proc,
     tick_cb w1' = Some tick -> process w1' = Some proc ->
     forall r w3,
       Call tick proc [] (set_current_source (Some this) w1')
       = Ret (Returned r) w3 ->
       MakeCallback Call kAncestorStackLimit this argv w
       = ([EvCall cb (handle_ s) argv; EvCall tick proc []],
          Ret (Some r) (set_current_source None w3))) /\
  (forall tick proc,
     tick_cb w1' = None \/ process w1' = None ->
     Get w1' (global w1') process_symbol = VObject proc ->
     as_function w1' (Get w1' proc tick_callback_symbol) = Some tick ->
     tick_cb (tick_cached proc tick w1') = Some tick /\
     process (tick_cached proc tick w1') = Some proc /\
     forall r w3,
       Call tick proc [] (set_current_source (Some this)
                                             (tick_cached proc tick w1'))
       = Ret (Returned r) w3 ->
       MakeCallback Call kAncestorStackLimit this argv w
       = ([EvCall cb (handle_ s) argv; EvCall tick proc []],
          Ret (Some r) (set_current_source None w3))) /\
  (tick_cb w1' = None \/ process w1' = None ->
   (forall proc,
      Get w1' (global w1') process_symbol = VObject proc ->
      as_function w1' (Get w1' proc tick_callback_symbol) = None) ->
   exists t wf,
     MakeCallback Call kAncestorStackLimit this argv w
     = (EvCall cb (handle_ s) argv :: t, Abort wf) /\
     called t = []).
Proof.
  intros Hs Hcb Hcur Hcall w1'. split; [|split].
  - intros tick proc Htick Hproc r w3 Hdrain.
    exact (MakeCallback_drain_returned this argv w s cb v w1 w1' tick
             proc r w3 Hs Hcb Hcur Hcall
             (ensure_tick_callback_cached _ _ _ Htick Hproc) Htick Hproc
             Hdrain).
  - intros tick proc Hempty Hproc Htick. split; [done|]. split; [done|].
    intros r w3 Hdrain.
    exact (MakeCallback_drain_returned this argv w s cb v w1
             (tick_cached proc tick w1') tick proc r w3 Hs Hcb Hcur Hcall
             (ensure_tick_callback_lookup _ _ _ Hempty Hproc Htick)
             eq_refl eq_refl Hdrain).
  - intros Hempty Hmissing.
    destruct (ensure_tick_callback_missing w1' Hempty Hmissing)
      as (t & wf & Hensure & Ht).
    exists t, wf. split; [|done].
    rewrite (MakeCallback_after_callback _ _ _ _ _ _ _ Hs Hcb Hcur Hcall).
    fold w1'. by rewrite (bind_Abort _ _ _ _ _ Hensure).
Qed.

(** *** Active and Inactive *)

Lemma bind_update {B} this f (k : unit -> M B) w :
  bind (update this f) k w
  = k tt (set_sources (alter f this (sources w)) w).
Proof. unfold update. by rewrite bind_modify. Qed.

(** C9, as the code has it: [Inactive] on a source that is already idle
    leaves the trace and the parent link empty and disposes of no handle,
    but it still applies [Unref]: the reference count of the source ends one
    below what it was before the call.  Other sources are untouched. *)
Theorem Inactive_on_idle_still_unrefs this w s :
  sources w !! this = Some s ->
  trace_ s = None ->
  parent_source_ s = None ->
  exists w',
    Inactive this w = ([], Ret tt w') /\
    sources w' !! this
    = Some {| handle_ := handle_ s; refs_ := refs_ s - 1;
              trace_ := None; parent_source_ := None |} /\
    persistents w' = persistents w /\
    (forall q, q <> this -> sources w' !! q = sources w !! q).
Proof.
  intros Hs Htrace Hparent.
  exists (set_sources (alter (set_refs (refs_ s - 1)) this (sources w)) w).
  split; [|split; [|split]].
  - unfold Inactive, DeleteParent, ClearStack, Unref.
    rewrite bind_assoc, (bind_deref _ _ _ _ Hs), Hparent, bind_ret_l.
    rewrite bind_assoc, (bind_deref _ _ _ _ Hs), Htrace, bind_ret_l.
    rewrite (bind_deref _ _ _ _ Hs). reflexivity.
  - simpl. rewrite lookup_alter_eq, Hs. simpl. unfold set_refs.
    by rewrite Htrace, Hparent.
  - reflexivity.
  - intros q Hq. simpl. by rewrite lookup_alter_ne.
Qed.

(** [Active] on a source that holds a trace, up to the test of
    [current_source] in [RecordStack]. *)
Lemma Active_on_active_run this w s old :
  sources w !! this = Some s ->
  trace_ s = Some old ->
  Active kFrameLimit this w
  = (let* cur := gets current_source in
     match cur with
     | Some c =>
       let* cs := deref c in
       run Persistent_New then
       update this (set_parent (Some (handle_ cs)))
     | None => ret tt
     end)
      (set_sources
         (alter (set_trace (Some (CurrentStackTrace w kFrameLimit))) this
            (alter (set_trace None) this
               (alter (set_refs (refs_ s + 1)) this (sources w))))
         (set_persistents (persistents w - 1 + 1) w)).
Proof.
  intros Hs Htrace.
  unfold Active, RecordStack, Ref, ClearStack.
  rewrite ?bind_assoc, (bind_deref _ _ _ _ Hs), bind_update.
  rewrite ?bind_assoc.
  rewrite (bind_deref _ (set_refs (refs_ s + 1) s))
    by (simpl; by rewrite lookup_alter_eq, Hs).
  simpl trace_. rewrite Htrace.
  unfold Persistent_Dispose, Persistent_New.
  rewrite ?bind_assoc, bind_modify, bind_update, bind_gets.
  rewrite ?bind_assoc, bind_modify, bind_update. reflexivity.
Qed.

(** C3, as the code has it: [Active] on a source that already holds a trace
    disposes of that trace and records the stack of the moment, and applies
    [Ref] once more.  It does nothing else of [Inactive]: with no source
    current the parent link stays as it was, and the count of live handles is
    the same as before (one trace handle given up, one taken); with a source
    current the parent link is set to that source's host object. *)
Theorem Active_on_active_recaptures_trace_only this w s old :
  sources w !! this = Some s ->
  trace_ s = Some old ->
  match current_source w with
  | Some c => is_Some (sources w !! c)
  | None => True
  end ->
  exists w' s',
    Active kFrameLimit this w = ([], Ret tt w') /\
    sources w' !! this = Some s' /\
    handle_ s' = handle_ s /\
    trace_ s' = Some (CurrentStackTrace w kFrameLimit) /\
    refs_ s' = refs_ s + 1 /\
    (current_source w = None ->
       parent_source_ s' = parent_source_ s /\
       persistents w' = persistents w) /\
    (forall c cs, current_source w = Some c -> sources w !! c = Some cs ->
       parent_source_ s' = Some (handle_ cs)).
Proof.
  intros Hs Htrace Hlive.
  rewrite (Active_on_active_run _ _ _ _ Hs Htrace), bind_gets.
  cbn [current_source set_sources set_persistents].
  destruct (current_source w) as [c|].
  - destruct Hlive as [cs Hc].
    set (m3 := alter _ this (alter _ this (alter _ this (sources w)))).
    assert (exists cs', m3 !! c = Some cs' /\ handle_ cs' = handle_ cs)
      as (cs' & Hc' & Hhandle).
    { destruct (decide (c = this)) as [->|Hne].
      - unfold m3. rewrite !lookup_alter_eq, Hs. eexists; split; [done|].
        simpl. congruence.
      - unfold m3. rewrite !lookup_alter_ne by done. eauto. }
    rewrite (bind_deref _ cs') by exact Hc'.
    unfold Persistent_New. rewrite bind_modify. unfold update, modify.
    eexists _, _. split; [reflexivity|]. cbn [sources set_sources set_persistents].
    unfold m3. rewrite !lookup_alter_eq, Hs. cbn [fmap option_fmap option_map].
    split; [reflexivity|]. simpl. repeat split; try done.
    intros c0 cs0 [= <-] Hc0. congruence.
  - eexists _, _. split; [reflexivity|]. cbn [sources set_sources set_persistents].
    rewrite !lookup_alter_eq, Hs. cbn [fmap option_fmap option_map].
    split; [reflexivity|]. simpl. repeat split; try done. lia.
Qed.

End Source.

(** * More of the emitter *)

Section EmitterMore.

Variable Call : Obj -> Obj -> list Value -> World -> Completion CallResult.

(** Whatever is stored, [Emit] either calls nothing and returns false, or
    runs the loop over some list of elements: the snapshot, or the single
    stored function. *)
Lemma Emit_shape w handle event argv :
  Emit Call handle event argv w = ([], Ret false w) \/
  exists elems, Emit Call handle event argv w
                = Emit_each Call elems handle argv w.
Proof.
  destruct (Get w handle events_symbol) as [| | |events] eqn:Hev;
    try (left; apply Emit_without_events; by rewrite Hev).
  destruct (as_function w (Get w events event)) as [listener|] eqn:Hf.
  - right. exists [VObject listener].
    rewrite (Emit_single _ _ _ _ _ _ _ Hev Hf).
    apply as_function_object in Hf as Hv. rewrite Hv in Hf.
    cbn [Emit_each]. rewrite bind_gets, Hf. unfold bind, invoke.
    by destruct (Call listener handle argv w) as [[v|e] w1|n w1|w1].
  - destruct (kind_of w (Get w events event)) as [[| |elems]|] eqn:Hk.
    + left. apply (Emit_unrecognized _ _ _ _ _ _ Hev Hf).
      unfold IsArray. by rewrite Hk.
    + left. apply (Emit_unrecognized _ _ _ _ _ _ Hev Hf).
      unfold IsArray. by rewrite Hk.
    + right. exists elems.
      destruct (Get w events event) as [| | |arr] eqn:Hl; try done.
      by eapply Emit_array.
    + left. apply (Emit_unrecognized _ _ _ _ _ _ Hev Hf).
      unfold IsArray. by rewrite Hk.
Qed.

Lemma Emit_each_calls_use (listeners : list Value) handle argv : forall w,
  Forall (calls_use handle argv)
         (trace_of (Emit_each Call listeners handle argv w)).
Proof.
  induction listeners as [|v rest IH]; intros w; simpl; [constructor|].
  rewrite bind_gets. destruct (as_function w v) as [f|]; [|apply IH].
  unfold bind, invoke.
  destruct (Call f handle argv w) as [[r|e] w1|n w1|w1]; simpl.
  - specialize (IH w1).
    destruct (Emit_each Call rest handle argv w1) as [t2 c]. simpl in *.
    by constructor.
  - by repeat constructor.
  - by repeat constructor.
  - by repeat constructor.
Qed.

Lemma Emit_each_report (listeners : list Value) handle argv : forall w t b w',
  Emit_each Call listeners handle argv w = (t, Ret b w') ->
  (b = true -> Forall (fun e => is_fatal e = false) t) /\
  (b = false ->
   exists t' f e, t = t' ++ [EvCall f handle argv; EvFatalException e]).
Proof.
  induction listeners as [|v rest IH]; intros w t b w'; simpl.
  - intros [= <- <- <-]. split; [constructor|done].
  - rewrite bind_gets. destruct (as_function w v) as [f|]; [|apply IH].
    unfold bind, invoke.
    destruct (Call f handle argv w) as [[r|e] w1|n w1|w1]; simpl; try done.
    + destruct (Emit_each Call rest handle argv w1) as [t2 c] eqn:Hrest.
      intros [= <- ->]. destruct (IH _ _ _ _ Hrest) as [Htrue Hfalse].
      split.
      * intros Hb. constructor; [done|by apply Htrue].
      * intros Hb. destruct (Hfalse Hb) as (t' & g & e & ->).
        by exists (EvCall f handle argv :: t'), g, e.
    + intros [= <- <- <-]. split; [done|]. intros _. by exists [], f, e.
Qed.

Lemma Emit_each_preserves (P : World -> Prop) (listeners : list Value)
    handle argv :
  (forall f w0, P w0 -> P (world_of (Call f handle argv w0))) ->
  forall w, P w ->
  P (world_of (outcome_of (Emit_each Call listeners handle argv w))).
Proof.
  intros HP. induction listeners as [|v rest IH]; intros w Hw; simpl; [done|].
  rewrite bind_gets. destruct (as_function w v) as [f|]; [|by apply IH].
  unfold bind, invoke. specialize (HP f w Hw).
  destruct (Call f handle argv w) as [[r|e] w1|n w1|w1]; simpl in *; try done.
  specialize (IH w1 HP).
  by destruct (Emit_each Call rest handle argv w1) as [t2 c].
Qed.

Lemma Emit_each_all (I : World -> Prop) (fs : list Obj) handle argv :
  (forall f w0, I w0 -> f ∈ fs ->
     IsFunction w0 (VObject f) = true /\
     exists v w1, Call f handle argv w0 = Ret (Returned v) w1 /\ I w1) ->
  forall w, I w ->
  exists w',
    Emit_each Call (VObject <$> fs) handle argv w
    = ((fun f => EvCall f handle argv) <$> fs, Ret true w') /\ I w'.
Proof.
  induction fs as [|f fs IH]; intros Hall w Hw; [by exists w|].
  destruct (Hall f w Hw) as (Hf & v & w1 & Hcall & Hw1); [by left|].
  destruct IH with (w := w1) as (w' & Hrest & Hw'); [|done|].
  { intros g w0 Hw0 Hg. apply Hall; [done|by right]. }
  exists w'. split; [|done].
  cbn [fmap list_fmap Emit_each]. rewrite bind_gets.
  unfold as_function. rewrite Hf. unfold bind, invoke. rewrite Hcall.
  fold (fmap (M:=list) VObject fs). by rewrite Hrest.
Qed.

(** X1: [Emit] returns false without having called anything exactly when
    the property lookups find no listener container of a recognized shape:
    [Get] yields no object for [_events], or yields for the event name,
    from the [_events] object or from its prototype chain, a value that is
    neither a function nor an array.  The world is then left as it was.
    With a recognized container, inherited ones included, [Emit] calls
    something or returns true. *)
Theorem Emit_false_without_call_iff_unrecognized w handle event argv :
  (recognized w handle event = false ->
   Emit Call handle event argv w = ([], Ret false w)) /\
  (recognized w handle event = true ->
   forall w', Emit Call handle event argv w <> ([], Ret false w')).
Proof.
  unfold recognized. split.
  - destruct (Get w handle events_symbol) as [| | |events] eqn:Hev;
      try (intros _; apply Emit_without_events; by rewrite Hev).
    destruct (as_function w (Get w events event)) eqn:Hf; [done|].
    intros Ha. by apply (Emit_unrecognized Call w handle events).
  - destruct (Get w handle events_symbol) as [| | |events] eqn:Hev; try done.
    destruct (as_function w (Get w events event)) as [listener|] eqn:Hf.
    + intros _ w'. rewrite (Emit_single _ _ _ _ _ _ _ Hev Hf).
      by destruct (Call listener handle argv w) as [[v|e] w1|n w1|w1].
    + intros Ha w' Hemit. unfold IsArray in Ha.
      destruct (kind_of w (Get w events event)) as [[| |elems]|] eqn:Hk;
        try done.
      destruct (Get w events event) as [| | |arr] eqn:Hl; try done.
      rewrite (Emit_array Call _ _ _ _ _ _ argv Hev Hl Hk) in Hemit.
      apply Emit_each_report in Hemit as [_ Hfalse].
      destruct (Hfalse eq_refl) as (t' & f & e & Ht). by destruct t'.
Qed.

(** X2: the one-listener branch of [Emit] does what the loop does on a
    snapshot holding that one function: same calls, same report, same
    result, same final world. *)
Theorem Emit_single_listener_as_snapshot w handle events event listener argv :
  Get w handle events_symbol = VObject events ->
  as_function w (Get w events event) = Some listener ->
  Emit Call handle event argv w
  = Emit_loop Call 1 [VObject listener] 0 handle argv w.
Proof.
  intros Hev Hf. rewrite (Emit_single _ _ _ _ _ _ _ Hev Hf).
  apply as_function_object in Hf as Hv. rewrite Hv in Hf.
  cbn [Emit_loop lookup list_lookup]. rewrite bind_gets, Hf.
  unfold bind, invoke.
  by destruct (Call listener handle argv w) as [[v|e] w1|n w1|w1].
Qed.

(** X3: every call [Emit] makes has the emitting object as receiver and
    the arguments [Emit] was given. *)
Theorem Emit_calls_use_receiver_and_arguments w handle event argv :
  Forall (calls_use handle argv) (trace_of (Emit Call handle event argv w)).
Proof.
  destruct (Emit_shape w handle event argv) as [-> | [elems ->]].
  - constructor.
  - apply Emit_each_calls_use.
Qed.

(** X4: when [Emit] returns true it has reported no error; when it returns
    false it has either done nothing at all or its last two actions are a
    listener call and the report of what that listener raised. *)
Theorem Emit_result_tells_the_report w handle event argv t b w' :
  Emit Call handle event argv w = (t, Ret b w') ->
  (b = true -> Forall (fun e => is_fatal e = false) t) /\
  (b = false ->
   t = [] \/
   exists t' f e, t = t' ++ [EvCall f handle argv; EvFatalException e]).
Proof.
  destruct (Emit_shape w handle event argv) as [-> | [elems ->]].
  - intros [= <- <- <-]. split; [done|by left].
  - intros [Htrue Hfalse]%Emit_each_report. split; [done|].
    intros Hb. right. by apply Hfalse.
Qed.

(** X5: [Emit] changes the world only through the listeners it calls: a
    property of the world that every call with this receiver and these
    arguments keeps is kept by [Emit]. *)
Theorem Emit_changes_nothing_itself (P : World -> Prop) w handle event argv :
  (forall f w0, P w0 -> P (world_of (Call f handle argv w0))) ->
  P w ->
  P (world_of (outcome_of (Emit Call handle event argv w))).
Proof.
  intros HP Hw.
  destruct (Emit_shape w handle event argv) as [-> | [elems ->]]; [done|].
  by apply Emit_each_preserves.
Qed.

(** X6: when the stored array holds the functions [fs] and each of them,
    called in a world satisfying [I], returns into a world satisfying [I]
    where the listeners are still functions, [Emit] calls every one of them
    once, in the order of the array, reports nothing and returns true. *)
Theorem Emit_calls_all_in_order (I : World -> Prop) (fs : list Obj)
    w handle events event arr argv :
  Get w handle events_symbol = VObject events ->
  Get w events event = VObject arr ->
  kind_of w (VObject arr) = Some (KArray (VObject <$> fs)) ->
  (forall f w0, I w0 -> f ∈ fs ->
     IsFunction w0 (VObject f) = true /\
     exists v w1, Call f handle argv w0 = Ret (Returned v) w1 /\ I w1) ->
  I w ->
  exists w',
    Emit Call handle event argv w
    = ((fun f => EvCall f handle argv) <$> fs, Ret true w') /\ I w'.
Proof.
  intros Hev Hl Hk Hall Hw.
  rewrite (Emit_array Call _ _ _ _ _ _ argv Hev Hl Hk).
  by apply Emit_each_all.
Qed.

End EmitterMore.

(** * More of the event source *)

Lemma called_app (t1 t2 : list Event) :
  called (t1 ++ t2) = called t1 ++ called t2.
Proof.
  induction t1 as [|e t1 IH]; [reflexivity|].
  destruct e; simpl; by rewrite IH.
Qed.

Lemma called_frames (trace : StackTrace) : called (map frame_line trace) = [].
Proof. induction trace as [|frame rest IH]; [reflexivity|exact IH]. Qed.

(** One step of the native code, for goals that run it on a world whose
    source [this] is known. *)
Ltac native_step :=
  first
    [ rewrite bind_assoc
    | rewrite bind_ret_l
    | rewrite bind_gets
    | rewrite bind_modify
    | rewrite bind_update
    | erewrite bind_deref
        by (cbn [sources set_sources set_persistents set_current_source];
            rewrite ?lookup_alter_eq;
            first [ eassumption
                  | match goal with
                    | H : sources _ !! _ = Some _ |- _ =>
                      rewrite H; reflexivity
                    end ]) ].

Section SourceMore.

Variable Call : Obj -> Obj -> list Value -> World -> Completion CallResult.
Variable kFrameLimit : Z.
Variable kAncestorStackLimit : Z.

Lemma PrintStack_fuel_bound fuel : forall this count w,
  called (trace_of (PrintStack_fuel kAncestorStackLimit fuel this count w)) = [] /\
  (sections (trace_of (PrintStack_fuel kAncestorStackLimit fuel this count w))
   <= S fuel)%nat.
Proof.
  assert (forall (w : World) (c : Completion unit) n,
            called (trace_of (([] : list Event), c)) = [] /\
            (sections (trace_of (([] : list Event), c)) <= S n)%nat) as Hquiet
    by (intros; split; [done|cbv; lia]).
  assert (forall (trace : StackTrace) (t : list Event) n,
            called t = [] -> (sections t <= n)%nat ->
            called (EvStderr LSeparator :: map frame_line trace ++ t) = [] /\
            (sections (EvStderr LSeparator :: map frame_line trace ++ t)
             <= S n)%nat) as Hsection.
  { intros trace t n Hc Hn. split.
    - cbn [called]. by rewrite called_app, called_frames.
    - change (S (sections (map frame_line trace ++ t)) <= S n)%nat.
      rewrite sections_app, sections_frames. simpl. lia. }
  induction fuel as [|fuel IH]; intros this count w; simpl.
  - destruct (sources w !! this) as [s|] eqn:Hs;
      [rewrite (bind_deref _ _ _ _ Hs)
      |rewrite bind_deref_dangling by done; by apply Hquiet].
    destruct (trace_ s) as [trace|]; [|by apply Hquiet].
    unfold fprintf_stderr. rewrite bind_emit, bind_print_frames.
    cbn [trace_of fst]. apply Hsection.
    + by destruct (parent_source_ s); [destruct (count <? kAncestorStackLimit)|].
    + destruct (parent_source_ s); [destruct (count <? kAncestorStackLimit)|];
        cbv; lia.
  - destruct (sources w !! this) as [s|] eqn:Hs;
      [rewrite (bind_deref _ _ _ _ Hs)
      |rewrite bind_deref_dangling by done; by apply Hquiet].
    destruct (trace_ s) as [trace|]; [|by apply Hquiet].
    unfold fprintf_stderr. rewrite bind_emit, bind_print_frames.
    cbn [trace_of fst].
    destruct (parent_source_ s) as [o|];
      [|apply Hsection; [done|cbv; lia]].
    destruct (count <? kAncestorStackLimit);
      [|apply Hsection; [done|cbv; lia]].
    destruct ((heap w !! o) ≫= internal_field) as [p|] eqn:Ho.
    + rewrite (bind_Unwrap _ _ _ _ Ho).
      destruct (IH p (count + 1) w) as [Hcalled Hsections].
      by apply Hsection.
    + unfold bind, Unwrap. rewrite Ho. apply Hsection; [done|cbv; lia].
Qed.

(** X7: [PrintStack] only prints: it makes no call into JavaScript, leaves
    the world as it found it (or crashes on a dangling link), and prints at
    most one section more than what is left of the ancestor limit, whatever
    the parent links are, cyclic ones included. *)
Theorem PrintStack_only_prints_and_is_bounded this count w :
  (outcome_of (PrintStack kAncestorStackLimit this count w) = Ret tt w \/
   outcome_of (PrintStack kAncestorStackLimit this count w) = Abort w) /\
  called (trace_of (PrintStack kAncestorStackLimit this count w)) = [] /\
  (sections (trace_of (PrintStack kAncestorStackLimit this count w))
   <= S (Z.to_nat (kAncestorStackLimit - count)))%nat.
Proof.
  split; [apply PrintStack_world|]. apply PrintStack_fuel_bound.
Qed.


Lemma ClearStack_run this w s :
  sources w !! this = Some s ->
  ClearStack this w
  = ([], Ret tt
       match trace_ s with
       | Some _ =>
         set_sources (alter (set_trace None) this (sources w))
                     (set_persistents (persistents w - 1) w)
       | None => w
       end).
Proof.
  intros Hs. unfold ClearStack, Persistent_Dispose.
  rewrite (bind_deref _ _ _ _ Hs). destruct (trace_ s); [|done].
  by rewrite bind_modify.
Qed.

Lemma DeleteParent_run this w s :
  sources w !! this = Some s ->
  DeleteParent this w
  = ([], Ret tt
       match parent_source_ s with
       | Some _ =>
         set_sources (alter (set_parent None) this (sources w))
                     (set_persistents (persistents w - 1) w)
       | None => w
       end).
Proof.
  intros Hs. unfold DeleteParent, Persistent_Dispose.
  rewrite (bind_deref _ _ _ _ Hs). destruct (parent_source_ s); [|done].
  by rewrite bind_modify.
Qed.

(** X8: [ClearStack] and [DeleteParent] are idempotent: running either
    twice in a row does what running it once does, on any world (a dangling
    [this] crashes both ways). *)
Theorem ClearStack_DeleteParent_idempotent this w :
  (run ClearStack this then ClearStack this) w = ClearStack this w /\
  (run DeleteParent this then DeleteParent this) w = DeleteParent this w.
Proof.
  destruct (sources w !! this) as [s|] eqn:Hs.
  - split.
    + rewrite (bind_Ret _ _ _ _ _ _ (ClearStack_run _ _ _ Hs)).
      rewrite (ClearStack_run _ _ _ Hs).
      destruct (trace_ s) as [tr|] eqn:Ht.
      * erewrite ClearStack_run
          by (cbn [sources set_sources]; by rewrite lookup_alter_eq, Hs).
        reflexivity.
      * by rewrite (ClearStack_run _ _ _ Hs), Ht.
    + rewrite (bind_Ret _ _ _ _ _ _ (DeleteParent_run _ _ _ Hs)).
      rewrite (DeleteParent_run _ _ _ Hs).
      destruct (parent_source_ s) as [o|] eqn:Ho.
      * erewrite DeleteParent_run
          by (cbn [sources set_sources]; by rewrite lookup_alter_eq, Hs).
        reflexivity.
      * by rewrite (DeleteParent_run _ _ _ Hs), Ho.
  - assert (ClearStack this w = ([], Abort w)) as Hc
      by (unfold ClearStack; by apply bind_deref_dangling).
    assert (DeleteParent this w = ([], Abort w)) as Hd
      by (unfold DeleteParent; by apply bind_deref_dangling).
    by rewrite (bind_Abort _ _ _ _ _ Hc), (bind_Abort _ _ _ _ _ Hd), Hc, Hd.
Qed.

(** X9: [Inactive] on any live source, whatever it holds, ends with no
    trace and no parent link, a reference count one lower, and one handle
    disposed for each of the two fields that was set; other sources, the
    heap and [current_source] are untouched. *)
Theorem Inactive_clears_whatever_is_set this w s :
  sources w !! this = Some s ->
  exists w',
    Inactive this w = ([], Ret tt w') /\
    sources w' !! this
    = Some {| handle_ := handle_ s; refs_ := refs_ s - 1;
              trace_ := None; parent_source_ := None |} /\
    persistents w'
    = persistents w - held (trace_ s) - held (parent_source_ s) /\
    (forall q, q <> this -> sources w' !! q = sources w !! q) /\
    heap w' = heap w /\ current_source w' = current_source w.
Proof.
  intros Hs. unfold Inactive, Unref.
  rewrite (bind_Ret _ _ _ _ _ _ (DeleteParent_run _ _ _ Hs)).
  cbn [trace_of outcome_of fst snd app].
  destruct s as [h r tr pa]. cbn [parent_source_ trace_ handle_ refs_ held] in *.
  destruct pa as [o|], tr as [t|].
  all: erewrite bind_Ret
         by (apply ClearStack_run; cbn [sources set_sources set_persistents];
             rewrite ?lookup_alter_eq, ?Hs; reflexivity).
  all: cbn [trace_of outcome_of fst snd app trace_ set_parent fmap option_fmap option_map].
  all: repeat native_step.
  all: eexists; split; [reflexivity|].
  all: cbn [sources set_sources set_persistents persistents heap current_source].
  all: rewrite ?lookup_alter_eq, Hs.
  all: cbn [fmap option_fmap option_map set_refs set_trace set_parent handle_ refs_ trace_ parent_source_].
  all: repeat split; try reflexivity; try (unfold held; lia).
  all: intros q Hq; by rewrite ?lookup_alter_ne.
Qed.

(** X10: [WeakParent], told that the object behind the parent link of
    [data] is gone, empties the link and disposes of its handle, leaving
    trace and reference count alone; told about any other object it fails
    its assertion. *)
Theorem WeakParent_severs_matching_link object data w s :
  sources w !! data = Some s ->
  (parent_source_ s = Some object ->
   exists w',
     WeakParent object data w = ([], Ret tt w') /\
     sources w' !! data
     = Some {| handle_ := handle_ s; refs_ := refs_ s;
               trace_ := trace_ s; parent_source_ := None |} /\
     persistents w' = persistents w - 1 /\
     (forall q, q <> data -> sources w' !! q = sources w !! q)) /\
  (parent_source_ s <> Some object ->
   WeakParent object data w = ([], Abort w)).
Proof.
  intros Hs. unfold WeakParent. rewrite (bind_deref _ _ _ _ Hs). split.
  - intros Hp. rewrite bool_decide_true by done. cbn [assert].
    rewrite bind_ret_l, (DeleteParent_run _ _ _ Hs), Hp.
    eexists. split; [reflexivity|].
    cbn [sources set_sources set_persistents persistents].
    rewrite lookup_alter_eq, Hs. repeat split.
    intros q Hq. by rewrite lookup_alter_ne.
  - intros Hp. by rewrite bool_decide_false.
Qed.

Lemma Active_on_idle_run this w s :
  sources w !! this = Some s ->
  trace_ s = None ->
  Active kFrameLimit this w
  = (let* cur := gets current_source in
     match cur with
     | Some c =>
       let* cs := deref c in
       run Persistent_New then
       update this (set_parent (Some (handle_ cs)))
     | None => ret tt
     end)
      (set_sources
         (alter (set_trace (Some (CurrentStackTrace w kFrameLimit))) this
            (alter (set_refs (refs_ s + 1)) this (sources w)))
         (set_persistents (persistents w + 1) w)).
Proof.
  intros Hs Htrace.
  unfold Active, RecordStack, Ref, ClearStack.
  rewrite ?bind_assoc, (bind_deref _ _ _ _ Hs), bind_update.
  rewrite ?bind_assoc.
  rewrite (bind_deref _ (set_refs (refs_ s + 1) s))
    by (simpl; by rewrite lookup_alter_eq, Hs).
  simpl trace_. rewrite Htrace.
  unfold Persistent_New.
  rewrite ?bind_assoc, bind_ret_l, bind_gets.
  rewrite ?bind_assoc, bind_modify, bind_update. reflexivity.
Qed.

(** X11: [Active] on a source without a trace raises its reference count
    by one, records the top [kFrameLimit] frames of the current stack, and,
    when a source is current, points the parent link at that source's host
    object (with no source current the link is left alone); one handle is
    created for the trace and one more for the link. *)
Theorem Active_on_idle_captures_and_links this w s :
  sources w !! this = Some s ->
  trace_ s = None ->
  match current_source w with
  | Some c => is_Some (sources w !! c)
  | None => True
  end ->
  exists w' s',
    Active kFrameLimit this w = ([], Ret tt w') /\
    sources w' !! this = Some s' /\
    handle_ s' = handle_ s /\
    refs_ s' = refs_ s + 1 /\
    trace_ s' = Some (take (Z.to_nat kFrameLimit) (js_stack w)) /\
    parent_source_ s'
    = match current_source w with
      | Some c => handle_ <$> sources w !! c
      | None => parent_source_ s
      end /\
    persistents w' = persistents w + 1 + held (current_source w) /\
    current_source w' = current_source w.
Proof.
  intros Hs Htrace Hlive.
  rewrite (Active_on_idle_run _ _ _ Hs Htrace), bind_gets.
  cbn [current_source set_sources set_persistents].
  revert Hlive. destruct (current_source w) as [c|] eqn:Hcur; intros Hlive.
  - destruct Hlive as [cs Hc].
    set (m2 := alter _ this (alter _ this (sources w))).
    assert (exists cs', m2 !! c = Some cs' /\ handle_ cs' = handle_ cs)
      as (cs' & Hc' & Hhandle).
    { destruct (decide (c = this)) as [->|Hne].
      - unfold m2. rewrite !lookup_alter_eq, Hs. eexists; split; [done|].
        simpl. congruence.
      - unfold m2. rewrite !lookup_alter_ne by done. eauto. }
    rewrite (bind_deref _ cs') by exact Hc'.
    unfold Persistent_New. rewrite bind_modify. unfold update, modify.
    eexists _, _. split; [reflexivity|].
    cbn [sources set_sources set_persistents persistents current_source].
    unfold m2. rewrite !lookup_alter_eq, Hs, Hc.
    cbn [fmap option_fmap option_map].
    split; [reflexivity|]. simpl. rewrite Hhandle.
    repeat split; try done; unfold held; lia.
  - eexists _, _. split; [reflexivity|].
    cbn [sources set_sources set_persistents persistents current_source].
    rewrite !lookup_alter_eq, Hs. cbn [fmap option_fmap option_map].
    split; [reflexivity|]. simpl.
    repeat split; try done; unfold held; lia.
Qed.


Ltac native_run :=
  repeat first
    [ native_step
    | progress cbn [fmap option_fmap option_map set_refs set_trace set_parent
                    handle_ refs_ trace_ parent_source_ trace_of outcome_of
                    fst snd app] ].

Lemma world_eq (w1 w2 : World) :
  heap w1 = heap w2 -> global w1 = global w2 -> js_stack w1 = js_stack w2 ->
  sources w1 = sources w2 -> current_source w1 = current_source w2 ->
  tick_cb w1 = tick_cb w2 -> process w1 = process w2 ->
  persistents w1 = persistents w2 ->
  w1 = w2.
Proof. destruct w1, w2. simpl. by intros -> -> -> -> -> -> -> ->. Qed.

(** X12: on an idle source, [Active] followed by [Inactive] puts the whole
    world back as it was, whether or not a source is current. *)
Theorem Active_then_Inactive_round_trip this w s :
  sources w !! this = Some s ->
  trace_ s = None ->
  parent_source_ s = None ->
  match current_source w with
  | Some c => is_Some (sources w !! c)
  | None => True
  end ->
  (run Active kFrameLimit this then Inactive this) w = ([], Ret tt w).
Proof.
  intros Hs Ht Hp Hlive.
  destruct s as [h r tr pa]. cbn in Ht, Hp. subst tr pa.
  assert (Hrun := Active_on_idle_run this w _ Hs eq_refl).
  rewrite bind_gets in Hrun.
  cbn [current_source set_sources set_persistents] in Hrun.
  assert (forall m : gmap Ptr EventSource,
            m !! this = Some {| handle_ := h; refs_ := r + 1 - 1;
                                trace_ := None; parent_source_ := None |} ->
            (forall q, q <> this -> m !! q = sources w !! q) ->
            m = sources w) as Hmap.
  { intros m Hm Hother. apply map_eq. intros q.
    destruct (decide (q = this)) as [->|Hq]; [|by apply Hother].
    rewrite Hm, Hs. do 2 f_equal. lia. }
  revert Hlive. destruct (current_source w) as [c|] eqn:Hcur; intros Hlive.
  - destruct Hlive as [cs Hc].
    assert (exists cs',
              alter (set_trace (Some (CurrentStackTrace w kFrameLimit))) this
                (alter (set_refs (r + 1)) this (sources w)) !! c = Some cs')
      as [cs' Hc'].
    { destruct (decide (c = this)) as [->|Hne].
      - rewrite !lookup_alter_eq, Hs. by eexists.
      - rewrite !lookup_alter_ne by done. eauto. }
    rewrite (bind_deref _ cs') in Hrun by exact Hc'.
    unfold Persistent_New in Hrun. rewrite bind_modify in Hrun.
    unfold update, modify in Hrun.
    rewrite (bind_Ret _ _ _ _ _ _ Hrun).
    unfold Inactive, DeleteParent, ClearStack, Unref, Persistent_Dispose.
    native_run. unfold update, modify.
    cbn [trace_of outcome_of fst snd app]. do 2 f_equal.
    apply world_eq; try reflexivity.
    + cbn [sources set_sources set_persistents]. apply Hmap.
      * rewrite !lookup_alter_eq, Hs. reflexivity.
      * intros q Hq. by rewrite !lookup_alter_ne.
    + cbn [sources set_sources set_persistents persistents]. lia.
  - rewrite bind_ret_l in Hrun || idtac.
    rewrite (bind_Ret _ _ _ _ _ _ Hrun).
    unfold Inactive, DeleteParent, ClearStack, Unref, Persistent_Dispose.
    native_run. unfold update, modify.
    cbn [trace_of outcome_of fst snd app]. do 2 f_equal.
    apply world_eq; try reflexivity.
    + cbn [sources set_sources set_persistents]. apply Hmap.
      * rewrite !lookup_alter_eq, Hs. reflexivity.
      * intros q Hq. by rewrite !lookup_alter_ne.
    + cbn [sources set_sources set_persistents persistents]. lia.
Qed.

Lemma bind_Exit {A B} (m : M A) (k : A -> M B) w t n w' :
  m w = (t, Exit n w') -> bind m k w = (t, Exit n w').
Proof. intros Hm. unfold bind. by rewrite Hm. Qed.


Lemma _MakeCallback_Ret_inv this cb target argv w t r wf :
  _MakeCallback Call kAncestorStackLimit this cb target argv w = (t, Ret r wf) ->
  current_source w = None /\
  exists v w1,
    Call cb target argv (set_current_source (Some this) w)
    = Ret (Returned v) w1 /\
    t = [EvCall cb target argv] /\ r = Some v /\
    wf = set_current_source None w1.
Proof.
  destruct (current_source w) as [outer|] eqn:Hcur.
  { by rewrite (_MakeCallback_nested Call _ _ _ _ _ _ _ Hcur). }
  destruct (Call cb target argv (set_current_source (Some this) w))
    as [[v|e] w1|n w1|w1] eqn:Hcall.
  - rewrite (_MakeCallback_returned Call _ _ _ _ _ _ _ _ Hcur Hcall).
    intros [= <- <- <-]. split; [done|]. by exists v, w1.
  - rewrite (_MakeCallback_thrown Call _ _ _ _ _ _ _ _ Hcur Hcall).
    by destruct (PrintStack_world kAncestorStackLimit this 0
                   (set_current_source None w1)) as [-> | ->].
  - unfold _MakeCallback. rewrite bind_gets, Hcur.
    rewrite bool_decide_true by done. simpl assert.
    rewrite bind_ret_l, bind_modify. unfold bind at 1, invoke.
    by rewrite Hcall.
  - unfold _MakeCallback. rewrite bind_gets, Hcur.
    rewrite bool_decide_true by done. simpl assert.
    rewrite bind_ret_l, bind_modify. unfold bind at 1, invoke.
    by rewrite Hcall.
Qed.

(** X13: [_MakeCallback] returns to its caller only when it was entered
    with no source current and the callable returned normally; the value is
    then the callable's (never an empty handle), the one action was that
    call, and [current_source] is null again. *)
Theorem _MakeCallback_returns_only_after_normal_return
    this cb target argv w t r wf :
  _MakeCallback Call kAncestorStackLimit this cb target argv w = (t, Ret r wf) ->
  current_source w = None /\
  current_source wf = None /\
  t = [EvCall cb target argv] /\
  exists v w1,
    Call cb target argv (set_current_source (Some this) w)
    = Ret (Returned v) w1 /\
    r = Some v /\ wf = set_current_source None w1.
Proof.
  intros Hrun.
  apply _MakeCallback_Ret_inv in Hrun as (Hcur & v & w1 & Hcall & -> & -> & ->).
  repeat split; try done. by exists v, w1.
Qed.

(** X14: when the callback of [MakeCallback] throws, the error is
    reported, the stacks are printed and the process ends (with status 1, or
    in the crash of a dangling link): the drain callable is never called and
    nothing is returned. *)
Theorem MakeCallback_throwing_callback_is_not_drained this argv w s cb e w1 :
  sources w !! this = Some s ->
  as_function w (Get w (handle_ s) callback_symbol) = Some cb ->
  current_source w = None ->
  Call cb (handle_ s) argv (set_current_source (Some this) w)
  = Ret (Thrown e) w1 ->
  trace_of (MakeCallback Call kAncestorStackLimit this argv w)
  = EvCall cb (handle_ s) argv :: EvReportException e
      :: trace_of (PrintStack kAncestorStackLimit this 0
                              (set_current_source None w1)) /\
  called (trace_of (MakeCallback Call kAncestorStackLimit this argv w))
  = [VObject cb] /\
  (outcome_of (MakeCallback Call kAncestorStackLimit this argv w)
   = Exit 1 (set_current_source None w1) \/
   outcome_of (MakeCallback Call kAncestorStackLimit this argv w)
   = Abort (set_current_source None w1)).
Proof.
  intros Hs Hcb Hcur Hcall.
  assert (Hthrown := _MakeCallback_thrown Call kAncestorStackLimit _ _ _ _ _ _ _
                       Hcur Hcall).
  destruct (PrintStack_fuel_bound
              (Z.to_nat (kAncestorStackLimit - 0)) this 0
              (set_current_source None w1)) as [Hquiet _].
  fold (PrintStack kAncestorStackLimit this 0 (set_current_source None w1))
    in Hquiet.
  unfold MakeCallback. rewrite (bind_deref _ _ _ _ Hs), !bind_gets, Hcb.
  destruct (PrintStack_world kAncestorStackLimit this 0
              (set_current_source None w1)) as [Hout | Hout];
    rewrite Hout in Hthrown.
  - rewrite (bind_Exit _ _ _ _ _ _ Hthrown). cbn [trace_of outcome_of fst snd].
    split; [done|]. split; [|by left]. cbn [called]. by rewrite Hquiet.
  - rewrite (bind_Abort _ _ _ _ _ Hthrown). cbn [trace_of outcome_of fst snd].
    split; [done|]. split; [|by right]. cbn [called]. by rewrite Hquiet.
Qed.

(** X15: an error thrown by the drain callable takes the same path as one
    thrown by the callback: report, stacks of the invoked source, end of the
    process. *)
Theorem MakeCallback_throwing_drain_is_fatal
    this argv w s cb v w1 w2 tick proc e w3 :
  sources w !! this = Some s ->
  as_function w (Get w (handle_ s) callback_symbol) = Some cb ->
  current_source w = None ->
  Call cb (handle_ s) argv (set_current_source (Some this) w)
  = Ret (Returned v) w1 ->
  ensure_tick_callback (set_current_source None w1) = ([], Ret tt w2) ->
  tick_cb w2 = Some tick ->
  process w2 = Some proc ->
  Call tick proc [] (set_current_source (Some this) w2) = Ret (Thrown e) w3 ->
  trace_of (MakeCallback Call kAncestorStackLimit this argv w)
  = EvCall cb (handle_ s) argv :: EvCall tick proc []
      :: EvReportException e
      :: trace_of (PrintStack kAncestorStackLimit this 0
                              (set_current_source None w3)) /\
  (outcome_of (MakeCallback Call kAncestorStackLimit this argv w)
   = Exit 1 (set_current_source None w3) \/
   outcome_of (MakeCallback Call kAncestorStackLimit this argv w)
   = Abort (set_current_source None w3)).
Proof.
  intros Hs Hcb Hcur Hcall Hensure Htick Hproc Hdrain.
  rewrite (MakeCallback_drain Call kAncestorStackLimit _ _ _ _ _ _ _ _ _ _
             Hs Hcb Hcur Hcall Hensure Htick Hproc).
  apply ensure_tick_callback_Ret in Hensure as (_ & Hcur2 & _).
  rewrite (_MakeCallback_thrown Call kAncestorStackLimit _ _ _ _ _ _ _
             Hcur2 Hdrain).
  cbn [trace_of outcome_of fst snd]. split; [done|].
  destruct (PrintStack_world kAncestorStackLimit this 0
              (set_current_source None w3)) as [-> | ->]; auto.
Qed.


Lemma lookup_tick_callback_Ret_inv w t w2 :
  lookup_tick_callback w = (t, Ret tt w2) ->
  t = [] /\
  exists proc tick,
    Get w (global w) process_symbol = VObject proc /\
    as_function w (Get w proc tick_callback_symbol) = Some tick /\
    w2 = tick_cached proc tick w.
Proof.
  destruct (Get w (global w) process_symbol) as [| | |proc] eqn:Hproc;
    try (intros Hrun;
         destruct (lookup_tick_callback_primitive w) as (t' & w' & Habort & _);
         [by rewrite Hproc|by rewrite Habort in Hrun]).
  unfold lookup_tick_callback. rewrite !bind_gets, Hproc.
  cbn [ToObject]. rewrite bind_ret_l.
  unfold Persistent_New. rewrite !bind_modify, !bind_gets.
  change (as_function _ (Get _ proc tick_callback_symbol))
    with (as_function w (Get w proc tick_callback_symbol)).
  destruct (as_function w (Get w proc tick_callback_symbol)) as [tick|] eqn:Ht.
  - rewrite bind_modify. intros [= <- <-]. split; [done|]. by exists proc, tick.
  - unfold fprintf_stderr. rewrite bind_emit. intros [=].
Qed.

(** X17: once the block that fills [tick_cb] and [process] has returned,
    both statics are set and running the block again does nothing.  It has
    printed nothing, and the world it leaves is pinned: with both statics
    set at entry it is the world at entry; otherwise [process] is the object
    stored as [process] on the global object, [tick_cb] the function stored
    as its [_tickCallback], two handles have been created, and nothing else
    has changed. *)
Theorem ensure_tick_callback_looks_up_once w t w2 :
  ensure_tick_callback w = (t, Ret tt w2) ->
  t = [] /\
  is_Some (tick_cb w2) /\ is_Some (process w2) /\
  ensure_tick_callback w2 = ([], Ret tt w2) /\
  ((is_Some (tick_cb w) /\ is_Some (process w) /\ w2 = w) \/
   ((tick_cb w = None \/ process w = None) /\
    exists proc tick,
      Get w (global w) process_symbol = VObject proc /\
      as_function w (Get w proc tick_callback_symbol) = Some tick /\
      w2 = tick_cached proc tick w)).
Proof.
  intros Hensure.
  destruct (ensure_tick_callback_Ret _ _ _ Hensure)
    as (-> & Hcur & [tick Ht] & [proc Hp]).
  split; [done|]. split; [by exists tick|]. split; [by exists proc|].
  split; [by eapply ensure_tick_callback_cached|].
  destruct (tick_cb w) as [tick0|] eqn:Ht0;
    [destruct (process w) as [proc0|] eqn:Hp0|].
  - left. rewrite (ensure_tick_callback_cached _ _ _ Ht0 Hp0) in Hensure.
    injection Hensure as <-. eauto.
  - right. split; [by right|].
    rewrite ensure_tick_callback_test in Hensure by auto.
    by apply lookup_tick_callback_Ret_inv in Hensure as [_ ?].
  - right. split; [by left|].
    rewrite ensure_tick_callback_test in Hensure by auto.
    by apply lookup_tick_callback_Ret_inv in Hensure as [_ ?].
Qed.

(** X18: [MakeCallback] entered while a source is current, on a source
    with a callable callback, fails the entry assertion of [_MakeCallback]:
    the process aborts before anything is called. *)
Theorem MakeCallback_inside_a_callback_aborts this argv w s cb outer :
  sources w !! this = Some s ->
  as_function w (Get w (handle_ s) callback_symbol) = Some cb ->
  current_source w = Some outer ->
  MakeCallback Call kAncestorStackLimit this argv w = ([], Abort w).
Proof.
  intros Hs Hcb Hcur. unfold MakeCallback.
  rewrite (bind_deref _ _ _ _ Hs), !bind_gets, Hcb.
  apply bind_Abort. by eapply _MakeCallback_nested.
Qed.

End SourceMore.

(** * The code at work on the small world *)

Import Demo.

Local Open Scope positive_scope.

(** Listeners f, g, h on event x, with g raising: f and g are called, the
    error is reported, h is not called, the result is false. *)
Lemma Emit_stops_at_first_throw_witness :
  Emit Call_leaf 3 "x" [VNumber 1; VNumber 2] w_idle
  = ([EvCall 10 3 [VNumber 1; VNumber 2];
      EvCall 11 3 [VNumber 1; VNumber 2];
      EvFatalException (VString "boom")],
     Ret false w_idle).
Proof.
  apply (Emit_stops_at_first_throw Call_leaf w_idle 3 4 "x" 5
           [VNumber 1; VNumber 2] [VObject 10] [VObject 12] 11
           [EvCall 10 3 [VNumber 1; VNumber 2]] w_idle (VString "boom") w_idle);
    vm_compute; reflexivity.
Defined.

(** Listener 13 drops listener 12 from the live array of event y and appends
    listener 14: 12 is still called in this emission, 14 is not. *)
Lemma Emit_snapshot_isolation_witness :
  kind_of w_rewritten (VObject 6)
  = Some (KArray [VObject 13; VObject 10; VObject 14]) /\
  sublist (called (trace_of (Emit Call_leaf 3 "y" [] w_idle)))
          [VObject 13; VObject 10; VObject 12] /\
  exists rest,
    trace_of (Emit Call_leaf 3 "y" [] w_idle)
    = ([EvCall 13 3 []; EvCall 10 3 []] ++ EvCall 12 3 [] :: rest)%list.
Proof.
  destruct (Emit_snapshot_isolation Call_leaf w_idle 3 4 "y" 6
              [VObject 13; VObject 10; VObject 12] [])
    as [Hsub Hlater]; try (vm_compute; reflexivity).
  split; [vm_compute; reflexivity|]. split; [exact Hsub|].
  apply (Hlater [VObject 13; VObject 10] 12 [] _ w_rewritten);
    vm_compute; reflexivity.
Defined.

(** Event z holds an array with a number, a plain object and a string:
    nothing is called and the result is true. *)
Lemma Emit_array_without_callable_is_true_witness :
  Emit Call_leaf 3 "z" [] w_idle = ([], Ret true w_idle) /\
  Emit_loop Call_leaf 3 [VObject 10; VNumber 1; VObject 12] 0 3 [] w_idle
  = Emit_loop Call_leaf 2 [VObject 10; VObject 12] 0 3 [] w_idle.
Proof.
  destruct (Emit_array_without_callable_is_true Call_leaf w_idle 3 4 "z" 7
              [VNumber 1; VObject 4; VString "s"] [])
    as [Htrue Hskip]; try (vm_compute; reflexivity).
  - repeat constructor.
  - split; [exact Htrue|].
    apply (Hskip [VObject 10] [VObject 12] (VNumber 1) w_idle). reflexivity.
Defined.



(** The callback of source 1 returns 42 in [w_idle]; the one of a throwing
    function ends the process after the report and the stacks; a call
    entered inside the callback of source 1 aborts. *)
Lemma _MakeCallback_current_source_discipline_witness :
  _MakeCallback Call_leaf 2 2 20 31 [] w_running = ([], Abort w_running) /\
  _MakeCallback Call_leaf 2 1 20 30 [] w_idle
  = ([EvCall 20 30 []], Ret (Some (VNumber 42)) w_returned) /\
  trace_of (_MakeCallback Call_leaf 2 1 11 30 [] w_chain)
  = EvCall 11 30 [] :: EvReportException (VString "boom")
      :: trace_of (PrintStack 2 1 0 w_chain) /\
  outcome_of (_MakeCallback Call_leaf 2 1 11 30 [] w_chain) = Exit 1 w_chain.
Proof.
  split; [|split].
  - destruct (_MakeCallback_current_source_discipline Call_leaf 2 2 20 31 []
                w_running) as [Hnested _].
    apply (Hnested 1). reflexivity.
  - destruct (_MakeCallback_current_source_discipline Call_leaf 2 1 20 30 []
                w_idle) as [_ Hrun].
    destruct (Hrun eq_refl) as (_ & Hret & _).
    apply (Hret (VNumber 42) w_running). reflexivity.
  - destruct (_MakeCallback_current_source_discipline Call_leaf 2 1 11 30 []
                w_chain) as [_ Hrun].
    destruct (Hrun eq_refl) as (_ & _ & Hthrow).
    destruct (Hthrow (VString "boom") (set_current_source (Some 1) w_chain)
                eq_refl) as (Htrace & _ & _).
    split; [exact Htrace|]. vm_compute. reflexivity.
Defined.

(** Source 1 in [w_idle]: the callback returns 42, then
    [process._tickCallback] is looked up, stored and called once with no
    argument. *)
Lemma MakeCallback_drains_once_witness :
  tick_cb w_returned = None /\
  exists w3,
    MakeCallback Call_leaf 2 1 [] w_idle
    = ([EvCall 20 30 []; EvCall 21 2 []],
       Ret (Some VUndefined) (set_current_source None w3)) /\
    tick_cb w3 = Some 21 /\ process w3 = Some 2.
Proof.
  split; [reflexivity|].
  destruct (MakeCallback_drains_once Call_leaf 2 1 [] w_idle (idle 30) 20
              (VNumber 42) w_running) as (_ & Hlookup & _);
    try (vm_compute; reflexivity).
  destruct (Hlookup 21 2) as (_ & _ & Hdrain);
    [left; reflexivity|vm_compute; reflexivity|vm_compute; reflexivity|].
  exists (set_current_source (Some 1) (tick_cached 2 21 w_returned)).
  split; [|split; reflexivity].
  apply (Hdrain VUndefined). reflexivity.
Defined.

(** Source 1 in [w_idle]: the drain callable returns [undefined], and that
    is what [MakeCallback] returns. *)
Lemma MakeCallback_returns_drain_result_witness :
  MakeCallback Call_leaf 2 1 [] w_idle
  = ([EvCall 20 30 []; EvCall 21 2 []],
     Ret (Some VUndefined)
         (set_current_source None
            (set_current_source (Some 1) (tick_cached 2 21 w_returned)))).
Proof.
  apply (MakeCallback_returns_drain_result Call_leaf 2 1 [] w_idle (idle 30) 20
           (VNumber 42) w_running (tick_cached 2 21 w_returned) 21 2
           VUndefined
           (set_current_source (Some 1) (tick_cached 2 21 w_returned)));
    vm_compute; reflexivity.
Defined.

(** C1 fails on the code: the callback of source 1 returns 42, and
    [MakeCallback] returns [undefined], the value of the drain call. *)
Lemma MakeCallback_drops_callback_result :
  Call_leaf 20 30 [] w_running = Ret (Returned (VNumber 42)) w_running /\
  (exists wf,
     outcome_of (MakeCallback Call_leaf 2 1 [] w_idle)
     = Ret (Some VUndefined) wf) /\
  ~ (exists wf,
       outcome_of (MakeCallback Call_leaf 2 1 [] w_idle)
       = Ret (Some (VNumber 42)) wf).
Proof.
  split; [reflexivity|]. split.
  - eexists. vm_compute. reflexivity.
  - intros [wf Hwf]. vm_compute in Hwf. discriminate Hwf.
Qed.

(** Source 2 invoked from [w_idle] returns with [current_source] null; the
    same call entered inside the callback of source 1 aborts. *)
Lemma _MakeCallback_restores_null_only_witness :
  (exists wf,
     _MakeCallback Call_leaf 2 2 20 31 [] w_idle
     = ([EvCall 20 31 []], Ret (Some (VNumber 42)) wf) /\
     current_source wf = current_source w_idle) /\
  _MakeCallback Call_leaf 2 2 20 31 [] w_running = ([], Abort w_running).
Proof.
  split.
  - destruct (_MakeCallback_restores_null_only Call_leaf 2 2 20 31 [] w_idle)
      as [Hrun _].
    apply (Hrun eq_refl (VNumber 42) (set_current_source (Some 2) w_idle)).
    reflexivity.
  - destruct (_MakeCallback_restores_null_only Call_leaf 2 2 20 31 [] w_running)
      as [_ Hnested].
    apply (Hnested 1). reflexivity.
Defined.

(** C2 fails on the code: inside the callback of source 1 the slot holds
    source 1; invoking source 2 there, whose callback would return, does not
    come back with the slot restored to source 1: the entry assertion ends
    the process, and so does the outer invocation when the callback of
    source 3 makes that nested call. *)
Lemma _MakeCallback_nested_call_aborts :
  current_source w_running = Some 1 /\
  Call_leaf 20 31 [] (set_current_source (Some 2) w_running)
  = Ret (Returned (VNumber 42)) (set_current_source (Some 2) w_running) /\
  _MakeCallback Call_leaf 2 2 20 31 [] w_running = ([], Abort w_running) /\
  ~ (exists r wf,
       outcome_of (_MakeCallback Call_leaf 2 2 20 31 [] w_running) = Ret r wf /\
       current_source wf = current_source w_running) /\
  _MakeCallback Call_nested 2 3 22 32 [] w_idle
  = ([EvCall 22 32 []], Abort (set_current_source (Some 3) w_idle)).
Proof.
  split; [reflexivity|]. split; [reflexivity|]. split; [reflexivity|].
  split; [|vm_compute; reflexivity].
  intros (r & wf & Hout & _). vm_compute in Hout. discriminate Hout.
Qed.

(** Source 1 active in [w_active], armed again with no source current: the
    fresh trace replaces the old one, the count goes from 1 to 2, the parent
    link and the number of live handles stay. *)
Lemma Active_on_active_recaptures_trace_only_witness :
  exists w' s',
    Active 10 1 w_active = ([], Ret tt w') /\
    sources w' !! 1 = Some s' /\
    handle_ s' = 30 /\
    trace_ s' = Some [frame "now" 3; frame "main" 1] /\
    refs_ s' = 2%Z /\
    parent_source_ s' = Some 31 /\
    persistents w' = 2%Z.
Proof.
  destruct (Active_on_active_recaptures_trace_only 10 1 w_active
              (active 30 "arm" (Some 31)) [frame "arm" 7; frame "main" 1])
    as (w' & s' & Hrun & Hs' & Hh & Ht & Hr & Hnone & _);
    [reflexivity|reflexivity|exact I|].
  destruct (Hnone eq_refl) as [Hparent Hlive].
  exists w', s'. repeat split; assumption.
Defined.

(** C3 fails on the code: [Active] on the active source 1 keeps the parent
    link to the host object of source 2 and raises the count to 2, where
    [Inactive] followed by [Active] leaves no parent link and a count of
    1. *)
Lemma Active_on_active_is_no_teardown :
  current_source w_active = None /\
  (sources w_active !! 1 ≫= trace_) = Some [frame "arm" 7%Z; frame "main" 1%Z] /\
  (exists s',
     sources (world_of (outcome_of (Active 10 1 w_active))) !! 1 = Some s' /\
     parent_source_ s' = Some 31 /\ refs_ s' = 2%Z) /\
  (exists s'',
     sources (world_of (outcome_of
               ((run Inactive 1 then Active 10 1) w_active))) !! 1 = Some s'' /\
     parent_source_ s'' = None /\ refs_ s'' = 1%Z) /\
  Active 10 1 w_active <> (run Inactive 1 then Active 10 1) w_active.
Proof.
  split; [reflexivity|]. split; [reflexivity|]. split; [|split].
  - eexists. split; [vm_compute; reflexivity|]. split; reflexivity.
  - eexists. split; [vm_compute; reflexivity|]. split; reflexivity.
  - intros Heq.
    assert (persistents (world_of (outcome_of (Active 10 1 w_active)))
            = persistents (world_of (outcome_of
                ((run Inactive 1 then Active 10 1) w_active)))) as Hp
      by (by rewrite Heq).
    vm_compute in Hp. discriminate Hp.
Qed.

(** Source 1 idle in [w_idle]: [Inactive] leaves it without trace and
    parent, with a count of -1. *)
Lemma Inactive_on_idle_still_unrefs_witness :
  exists w',
    Inactive 1 w_idle = ([], Ret tt w') /\
    sources w' !! 1
    = Some {| handle_ := 30; refs_ := -1; trace_ := None;
              parent_source_ := None |} /\
    persistents w' = 0%Z.
Proof.
  destruct (Inactive_on_idle_still_unrefs 1 w_idle (idle 30))
    as (w' & Hrun & Hs' & Hlive & _); [reflexivity|reflexivity|reflexivity|].
  exists w'. repeat split; assumption.
Defined.

(** C9 fails on the code: source 1 is idle with a count of 0, and
    [Inactive] takes the count to -1: the call is no no-op. *)
Lemma Inactive_on_idle_drops_count :
  sources w_idle !! 1 = Some (idle 30) /\
  (exists s',
     sources (world_of (outcome_of (Inactive 1 w_idle))) !! 1 = Some s' /\
     trace_ s' = None /\ parent_source_ s' = None /\
     refs_ s' = (-1)%Z /\ (refs_ s' < refs_ (idle 30%positive))%Z) /\
  Inactive 1 w_idle <> ([], Ret tt w_idle).
Proof.
  split; [reflexivity|]. split.
  - eexists. split; [vm_compute; reflexivity|]. repeat split.
  - intros Heq.
    assert (sources (world_of (outcome_of (Inactive 1 w_idle))) !! 1
            = sources w_idle !! 1) as Hs by (by rewrite Heq).
    vm_compute in Hs. discriminate Hs.
Qed.

(** ** Further runs *)

Example Emit_one_listener :
  Emit Call_leaf 3 "one" [VNumber 1] w_idle
  = ([EvCall 10 3 [VNumber 1]], Ret true w_idle).
Proof. vm_compute. reflexivity. Qed.

Example Emit_one_listener_throws :
  Emit Call_leaf 3 "bad" [] w_idle
  = ([EvCall 11 3 []; EvFatalException (VString "boom")], Ret false w_idle).
Proof. vm_compute. reflexivity. Qed.

Example Emit_number_stored :
  Emit Call_leaf 3 "n" [] w_idle = ([], Ret false w_idle).
Proof. vm_compute. reflexivity. Qed.

Example Emit_nothing_stored :
  Emit Call_leaf 3 "absent" [] w_idle = ([], Ret false w_idle).
Proof. vm_compute. reflexivity. Qed.

Example Emit_no_events_property :
  Emit Call_leaf 2 "x" [] w_idle = ([], Ret false w_idle).
Proof. vm_compute. reflexivity. Qed.

Example Emit_inherited_listener :
  Emit Call_leaf 42 "toString" [] w_inherits
  = ([EvCall 10 42 []], Ret true w_inherits).
Proof. vm_compute. reflexivity. Qed.

Example Get_follows_the_prototype_chain :
  Get w_inherits 41 "toString" = VObject 10 /\
  Get w_inherits 41 "absent" = VUndefined /\
  chain_ends (size (heap w_inherits)) (heap w_inherits) 41 = true.
Proof. repeat split; vm_compute; reflexivity. Qed.

Example lookup_of_a_number_process :
  exists w',
    lookup_tick_callback
      (set_heap (<[1 := plain_object [("process", VNumber 7)] None]> demo_heap)
                w_idle)
    = ([EvStderr (LText "process._tickCallback undefined. Bad.")], Abort w').
Proof. eexists. vm_compute. reflexivity. Qed.

Example MakeCallback_without_callback :
  MakeCallback Call_leaf 2 4 [] w_idle = ([], Ret None w_idle).
Proof. vm_compute. reflexivity. Qed.

Example MakeCallback_nested_through_callback :
  MakeCallback Call_nested 2 3 [] w_idle
  = ([EvCall 22 32 []], Abort (set_current_source (Some 3) w_idle)).
Proof. vm_compute. reflexivity. Qed.

Example Active_then_Inactive_on_idle :
  (run Active 10 1 then Inactive 1) w_idle = ([], Ret tt w_idle).
Proof. vm_compute. reflexivity. Qed.

Example WeakParent_severs_the_link :
  (sources (world_of (outcome_of (WeakParent 31 1 w_chain))) !! 1)
    ≫= parent_source_
  = None.
Proof. vm_compute. reflexivity. Qed.

(** ** Runs for the further properties *)

Lemma Emit_false_without_call_iff_unrecognized_witness :
  Emit Call_leaf 3 "n" [] w_idle = ([], Ret false w_idle) /\
  Emit Call_leaf 3 "z" [] w_idle <> ([], Ret false w_idle) /\
  Emit Call_leaf 42 "absent" [] w_inherits = ([], Ret false w_inherits) /\
  Emit Call_leaf 42 "toString" [] w_inherits <> ([], Ret false w_inherits).
Proof.
  split; [|split; [|split]].
  - destruct (Emit_false_without_call_iff_unrecognized Call_leaf w_idle 3 "n" [])
      as [Hnone _].
    apply Hnone. vm_compute. reflexivity.
  - destruct (Emit_false_without_call_iff_unrecognized Call_leaf w_idle 3 "z" [])
      as [_ Hsome].
    apply Hsome. vm_compute. reflexivity.
  - destruct (Emit_false_without_call_iff_unrecognized Call_leaf w_inherits 42
                "absent" []) as [Hnone _].
    apply Hnone. vm_compute. reflexivity.
  - destruct (Emit_false_without_call_iff_unrecognized Call_leaf w_inherits 42
                "toString" []) as [_ Hsome].
    apply Hsome. vm_compute. reflexivity.
Defined.

Lemma Emit_single_listener_as_snapshot_witness :
  Emit Call_leaf 3 "one" [VNumber 1] w_idle
  = Emit_loop Call_leaf 1 [VObject 10] 0 3 [VNumber 1] w_idle.
Proof.
  apply (Emit_single_listener_as_snapshot Call_leaf w_idle 3 4 "one" 10);
    vm_compute; reflexivity.
Defined.

Lemma Emit_result_tells_the_report_witness :
  [EvCall 10 3 []; EvCall 11 3 []; EvFatalException (VString "boom")] = [] \/
  exists t' f e,
    [EvCall 10 3 []; EvCall 11 3 []; EvFatalException (VString "boom")]
    = (t' ++ [EvCall f 3 []; EvFatalException e])%list.
Proof.
  destruct (Emit_result_tells_the_report Call_leaf w_idle 3 "x" []
              [EvCall 10 3 []; EvCall 11 3 [];
               EvFatalException (VString "boom")] false w_idle)
    as [_ Hfalse]; [vm_compute; reflexivity|].
  apply Hfalse. reflexivity.
Defined.

Lemma Emit_changes_nothing_itself_witness :
  current_source (world_of (outcome_of (Emit Call_leaf 3 "y" [] w_idle))) = None.
Proof.
  apply (Emit_changes_nothing_itself Call_leaf
           (fun w => current_source w = None) w_idle 3 "y" []);
    [|reflexivity].
  intros f w0 Hw0. unfold Call_leaf.
  repeat (destruct f as [f|f|]; try exact Hw0).
Defined.

Lemma Emit_calls_all_in_order_witness :
  exists w',
    Emit Call_leaf 3 "y" [] w_idle
    = ([EvCall 13 3 []; EvCall 10 3 []; EvCall 12 3 []], Ret true w') /\
    idle_or_rewritten w'.
Proof.
  apply (Emit_calls_all_in_order Call_leaf idle_or_rewritten [13; 10; 12]
           w_idle 3 4 "y" 6 []); try (vm_compute; reflexivity).
  - intros f w0 Hw0 Hf.
    repeat (apply elem_of_cons in Hf as [->|Hf]);
      [..|by apply elem_of_nil in Hf];
      destruct Hw0 as [-> | ->];
      (split; [vm_compute; reflexivity|]);
      eexists _, _; (split; [reflexivity|]);
      first [ left; vm_compute; reflexivity | right; vm_compute; reflexivity ].
  - left. reflexivity.
Defined.

Lemma Inactive_clears_whatever_is_set_witness :
  exists w',
    Inactive 1 w_chain = ([], Ret tt w') /\
    sources w' !! 1
    = Some {| handle_ := 30; refs_ := 0; trace_ := None;
              parent_source_ := None |} /\
    persistents w' = 5%Z.
Proof.
  destruct (Inactive_clears_whatever_is_set 1 w_chain
              (active 30 "a" (Some 31)))
    as (w' & Hrun & Hs' & Hlive & _); [reflexivity|].
  exists w'. repeat split; assumption.
Defined.

Lemma WeakParent_severs_matching_link_witness :
  (exists w',
     WeakParent 31 1 w_chain = ([], Ret tt w') /\
     sources w' !! 1
     = Some {| handle_ := 30; refs_ := 1;
               trace_ := Some [frame "a" 7; frame "main" 1];
               parent_source_ := None |} /\
     persistents w' = 6%Z) /\
  WeakParent 32 1 w_chain = ([], Abort w_chain).
Proof.
  destruct (WeakParent_severs_matching_link 31 1 w_chain
              (active 30 "a" (Some 31)) eq_refl) as [Hmatch _].
  destruct (WeakParent_severs_matching_link 32 1 w_chain
              (active 30 "a" (Some 31)) eq_refl) as [_ Hother].
  split.
  - destruct (Hmatch eq_refl) as (w' & Hrun & Hs' & Hlive & _).
    exists w'. split; [exact Hrun|]. split; [exact Hs'|exact Hlive].
  - apply Hother. discriminate.
Defined.

Lemma Active_on_idle_captures_and_links_witness :
  exists w' s',
    Active 1 2 w_running = ([], Ret tt w') /\
    sources w' !! 2 = Some s' /\
    refs_ s' = 1%Z /\
    trace_ s' = Some [frame "now" 3] /\
    parent_source_ s' = Some 30 /\
    persistents w' = 2%Z.
Proof.
  destruct (Active_on_idle_captures_and_links 1 2 w_running (idle 31))
    as (w' & s' & Hrun & Hs' & _ & Hr & Ht & Hp & Hlive & _);
    [reflexivity|reflexivity|vm_compute; eauto|].
  exists w', s'. repeat split; assumption.
Defined.

Lemma Active_then_Inactive_round_trip_witness :
  (run Active 10 2 then Inactive 2) w_running = ([], Ret tt w_running).
Proof.
  apply (Active_then_Inactive_round_trip 10 2 w_running (idle 31));
    [reflexivity|reflexivity|reflexivity|vm_compute; eauto].
Defined.

Lemma _MakeCallback_returns_only_after_normal_return_witness :
  current_source w_idle = None /\
  current_source w_returned = None /\
  [EvCall 20 30 []] = [EvCall 20 30 []] /\
  exists v w1,
    Call_leaf 20 30 [] (set_current_source (Some 1) w_idle)
    = Ret (Returned v) w1 /\
    Some (VNumber 42) = Some v /\ w_returned = set_current_source None w1.
Proof.
  apply (_MakeCallback_returns_only_after_normal_return Call_leaf 2 1 20 30 []
           w_idle [EvCall 20 30 []] (Some (VNumber 42)) w_returned).
  vm_compute. reflexivity.
Defined.

Lemma MakeCallback_throwing_callback_is_not_drained_witness :
  called (trace_of (MakeCallback Call_leaf 2 1 [] w_throwing)) = [VObject 11] /\
  sections (trace_of (MakeCallback Call_leaf 2 1 [] w_throwing)) = 3%nat /\
  outcome_of (MakeCallback Call_leaf 2 1 [] w_throwing) = Exit 1 w_throwing.
Proof.
  destruct (MakeCallback_throwing_callback_is_not_drained Call_leaf 2 1 []
              w_throwing (active 30 "a" (Some 31)) 11 (VString "boom")
              (set_current_source (Some 1) w_throwing))
    as (_ & Hcalled & _); try (vm_compute; reflexivity).
  split; [exact Hcalled|]. split; vm_compute; reflexivity.
Defined.

Lemma MakeCallback_throwing_drain_is_fatal_witness :
  trace_of (MakeCallback Call_leaf 2 1 [] w_bad_tick)
  = [EvCall 20 30 []; EvCall 11 2 []; EvReportException (VString "boom")] /\
  outcome_of (MakeCallback Call_leaf 2 1 [] w_bad_tick) = Exit 1 w_bad_tick.
Proof.
  destruct (MakeCallback_throwing_drain_is_fatal Call_leaf 2 1 [] w_bad_tick
              (idle 30) 20 (VNumber 42)
              (set_current_source (Some 1) w_bad_tick) w_bad_tick 11 2
              (VString "boom") (set_current_source (Some 1) w_bad_tick))
    as [Htrace _]; try (vm_compute; reflexivity).
  split; [|vm_compute; reflexivity].
  rewrite Htrace. vm_compute. reflexivity.
Defined.


Lemma ensure_tick_callback_looks_up_once_witness :
  tick_cb (tick_cached 2 21 w_idle) = Some 21 /\
  process (tick_cached 2 21 w_idle) = Some 2 /\
  ensure_tick_callback (tick_cached 2 21 w_idle)
  = ([], Ret tt (tick_cached 2 21 w_idle)) /\
  exists proc tick,
    Get w_idle (global w_idle) process_symbol = VObject proc /\
    as_function w_idle (Get w_idle proc tick_callback_symbol) = Some tick /\
    tick_cached 2 21 w_idle = tick_cached proc tick w_idle.
Proof.
  destruct (ensure_tick_callback_looks_up_once w_idle []
              (tick_cached 2 21 w_idle))
    as (_ & _ & _ & Hagain & [(Hset & _) | (_ & Hlooked)]);
    [vm_compute; reflexivity| |].
  - destruct Hset as [? Hset]. vm_compute in Hset. discriminate Hset.
  - split; [reflexivity|]. split; [reflexivity|]. split; assumption.
Defined.

Lemma MakeCallback_inside_a_callback_aborts_witness :
  MakeCallback Call_leaf 2 2 [] w_running = ([], Abort w_running).
Proof.
  apply (MakeCallback_inside_a_callback_aborts Call_leaf 2 2 [] w_running
           (idle 31) 20 1); vm_compute; reflexivity.
Defined.
